(** * arcade_tools.GameElement: a shallow embedding and its properties

    The development follows [src/arcade_tools/GameElement.py].  The class
    sits on top of pygame 2.6.1 (the version pinned by [setup.py]) and of
    CPython's [float] and [int]; the parts of these that the class calls
    are modelled first:

    - Python floats are IEEE 754 binary64 numbers ([spec_float] with
      [prec = 53], [emax = 1024]); Python ints are unbounded ([Z]);
    - the coordinates of a [pygame.Rect] are C [int]s (32 bits, two's
      complement); the arguments of [Rect.move_ip] go through
      [pg_IntFromObj], an assignment to [Rect.topleft] checks the range;
    - objects that are mutated in place or passed by reference (surfaces,
      game elements) live in a store indexed by references. *)

From Stdlib Require Import ZArith QArith Qabs String Bool Lia SpecFloat.
From stdpp Require Import base option gmap strings.

Local Open Scope Z_scope.

(** ** Python: exceptions, results, objects *)

Inductive exn : Type :=
  | RuntimeError (msg : string)
  | ValueError (msg : string)
  | TypeError (msg : string)
  | OverflowError (msg : string)
  | AttributeError (msg : string)
  | pygame_error (msg : string)
  | OSError (msg : string).

(** The outcome of a call: a value or a raised exception. *)
Inductive result (A : Type) : Type :=
  | Ok (a : A)
  | Raise (e : exn).
Arguments Ok {A} a.
Arguments Raise {A} e.

Definition result_bind {A B} (r : result A) (k : A -> result B) : result B :=
  match r with
  | Ok a => k a
  | Raise e => Raise e
  end.

Notation "'try!' x ':=' c1 'in' c2" := (result_bind c1 (fun x => c2))
  (at level 10, x name, c1 at level 100, c2 at level 200).
Notation "'try!' '_' ':=' c1 'in' c2" := (result_bind c1 (fun _ => c2))
  (at level 10, c1 at level 100, c2 at level 200).

Definition is_Ok {A} (r : result A) : bool :=
  match r with Ok _ => true | Raise _ => false end.

(** References to the objects of the store. *)
Definition ref := positive.
Bind Scope positive_scope with ref.

(** Python values: immutable ones by value, the others by reference. *)
Inductive pyobj : Type :=
  | PyNone
  | PyBool (b : bool)
  | PyInt (z : Z)
  | PyFloat (f : spec_float)
  | PyStr (s : string)
  | PyRef (r : ref).

(** ** Python floats: binary64 *)

Definition prec : Z := 53.
Definition emax : Z := 1024.

Definition float_mul : spec_float -> spec_float -> spec_float := SFmul prec emax.
Definition float_div : spec_float -> spec_float -> spec_float := SFdiv prec emax.

(** The double nearest to an integer, ties to even; the integers beyond
    the doubles give an infinity. *)
Definition float_of_Z (z : Z) : spec_float := binary_normalize prec emax z 0 false.

(** [float(n)] for an int [n] (CPython's [PyLong_AsDouble]): the nearest
    double; an int beyond the range of the doubles raises. *)
Definition py_float_of_int (n : Z) : result spec_float :=
  match float_of_Z n with
  | S754_infinity _ => Raise (OverflowError "int too large to convert to float")
  | f => Ok f
  end.

(** [f * n] for a float [f] and an int [n]: [float.__mul__] converts the
    int, then multiplies in binary64. *)
Definition float_mul_int (f : spec_float) (n : Z) : result spec_float :=
  try! fn := py_float_of_int n in
  Ok (float_mul f fn).

Definition SF_finite (f : spec_float) : bool :=
  match f with
  | S754_zero _ | S754_finite _ _ _ => true
  | _ => false
  end.

(** The rational a finite float stands for (0 for infinities and NaN). *)
Definition SF2Q (f : spec_float) : Q :=
  match f with
  | S754_finite s m e =>
      match e with
      | Zneg p => Qmake (cond_Zopp s (Zpos m)) (2 ^ p)%positive
      | _ => inject_Z (cond_Zopp s (Zpos m) * 2 ^ e)
      end
  | _ => 0%Q
  end.

(** [k] is [q] rounded toward zero: the integer of the sign of [q] whose
    magnitude is the largest not above that of [q]. *)
Definition rounds_toward_zero (q : Q) (k : Z) : Prop :=
  (Qabs (inject_Z k) <= Qabs q)%Q /\
  (Qabs q < Qabs (inject_Z k) + 1)%Q /\
  (0 <= inject_Z k * q)%Q.

(** The same, computed. *)
Definition Qtruncate (q : Q) : Z := Z.quot (Qnum q) (Zpos (Qden q)).

(** ** C ints *)

Definition INT_MIN : Z := - 2 ^ 31.
Definition INT_MAX : Z := 2 ^ 31 - 1.
Definition LONG_MIN : Z := - 2 ^ 63.
Definition LONG_MAX : Z := 2 ^ 63 - 1.

Definition c_int_range (z : Z) : Prop := INT_MIN <= z <= INT_MAX.
Definition in_int_range (z : Z) : bool := (INT_MIN <=? z) && (z <=? INT_MAX).
Definition in_long_range (z : Z) : bool := (LONG_MIN <=? z) && (z <=? LONG_MAX).

(** Conversion to [int] and [int] arithmetic keep the low 32 bits. *)
Definition wrap_int (z : Z) : Z := (z + 2 ^ 31) mod 2 ^ 32 - 2 ^ 31.

(** The integral part of a double, as the C conversion [(int)dv] computes
    it on the sign, mantissa and exponent: the bits below the binary point
    are shifted out. *)
Definition SFtrunc (f : spec_float) : option Z :=
  match f with
  | S754_zero _ => Some 0
  | S754_finite s m e => Some (cond_Zopp s (Z.shiftl (Zpos m) e))
  | _ => None
  end.

(** What the platform leaves open: the value of [(int)dv] when the
    integral part of [dv] is not an [int] (C leaves it undefined; x86-64
    yields [INT_MIN], AArch64 saturates), and the image files that
    [pygame.image.load(path).convert_alpha()] can read, with the width and
    height of the surface it returns or the exception it raises. *)
Record Platform : Type := {
  cast_undefined : spec_float -> Z;
  image_load : string -> result (Z * Z);
}.

(** ** pygame *)

Module Rect.
(** [pygame.Rect]: four C ints. *)
Record t : Type := make { x : Z; y : Z; w : Z; h : Z }.

Definition topleft (r : t) : Z * Z := (x r, y r).
Definition size (r : t) : Z * Z := (w r, h r).
End Rect.

Module Vector2.
(** [pygame.math.Vector2]: two doubles. *)
Record t : Type := make { x : spec_float; y : spec_float }.
End Vector2.

(** What a surface shows, as the history of what was drawn on it. *)
Inductive Paint : Type :=
  | Pixels (origin : string)
  | Blitted (dest source : Paint) (pos : Z * Z).

(** [pygame.Surface]: width, height and content. *)
Record Surface : Type := { surf_w : Z; surf_h : Z; surf_paint : Paint }.

(** [pygame.event.Event], of which only the type tag is kept. *)
Record Event : Type := { event_type : Z }.

Section Pygame.
Context (pf : Platform).

(** The C conversion [(int)dv]. *)
Definition c_double_to_int (dv : spec_float) : Z :=
  match SFtrunc dv with
  | Some k => if in_int_range k then k else cast_undefined pf dv
  | None => cast_undefined pf dv
  end.

(** [pg_IntFromObj] of pygame's [base.c]: a float is cast with
    [(int)dv]; anything else goes through [PyLong_AsLong], whose [long]
    is narrowed to [int], and whose failure is a failed conversion. *)
Definition pg_IntFromObj (obj : pyobj) : option Z :=
  match obj with
  | PyFloat dv => Some (c_double_to_int dv)
  | PyInt z => if in_long_range z then Some (wrap_int z) else None
  | PyBool b => Some (if b then 1 else 0)
  | _ => None
  end.

Definition pg_TwoIntsFromObj (a b : pyobj) : option (Z * Z) :=
  match pg_IntFromObj a, pg_IntFromObj b with
  | Some va, Some vb => Some (va, vb)
  | _, _ => None
  end.

(** [Rect.move_ip(a, b)]: [r.x += a; r.y += b] on C ints. *)
Definition Rect_move_ip (r : Rect.t) (a b : pyobj) : result Rect.t :=
  match pg_TwoIntsFromObj a b with
  | Some (dx, dy) =>
      Ok (Rect.make (wrap_int (Rect.x r + dx)) (wrap_int (Rect.y r + dy))
                    (Rect.w r) (Rect.h r))
  | None => Raise (TypeError "argument must contain two numbers")
  end.

(** Assignment of a pair of ints to [Rect.topleft]: the assignment
    checks the range, and an int that is not a C int is refused.  (The
    constructor passes its [x] and [y], which are ints.) *)
Definition Rect_set_topleft (r : Rect.t) (a b : Z) : result Rect.t :=
  if in_int_range a && in_int_range b then
    Ok (Rect.make a b (Rect.w r) (Rect.h r))
  else Raise (TypeError "invalid rect assignment").

(** [Surface.get_rect(topleft=(a, b))]: the rectangle [(0, 0, w, h)] of
    the surface, then the keyword is assigned. *)
Definition Surface_get_rect (s : Surface) (a b : Z) : result Rect.t :=
  Rect_set_topleft (Rect.make 0 0 (surf_w s) (surf_h s)) a b.
End Pygame.

(** ** The store *)

(** An instance of [GameElement]: its four attributes.  [image] is a
    reference to a surface of the store, which other objects may share. *)
Record GameElement : Type := {
  image : ref;
  rect : Rect.t;
  velocity : Vector2.t;
  collidable : bool;
}.

(** The mutable objects: surfaces, game elements, and the instance that
    the class call hands to [__init__], which has no attribute yet. *)
Inductive object : Type :=
  | OSurface (s : Surface)
  | OElement (e : GameElement)
  | OBlank.

Record World : Type := {
  pg_initialized : bool;              (* what [pygame.get_init()] returns *)
  heap : gmap ref object;
}.

Definition set_rect (e : GameElement) (r : Rect.t) : GameElement :=
  {| image := image e; rect := r; velocity := velocity e;
     collidable := collidable e |}.

Definition store (r : ref) (o : object) (σ : World) : World :=
  {| pg_initialized := pg_initialized σ; heap := <[r := o]> (heap σ) |}.

(** Attribute access on [self]: an object that is not a [GameElement]
    has none of its attributes. *)
Definition get_element (σ : World) (self : ref) : result GameElement :=
  match heap σ !! self with
  | Some (OElement e) => Ok e
  | _ => Raise (AttributeError "object is not a GameElement")
  end.

Definition get_surface (σ : World) (r : ref) : result Surface :=
  match heap σ !! r with
  | Some (OSurface s) => Ok s
  | _ => Raise (TypeError "object is not a pygame.Surface")
  end.

(** The attribute [blit], which surfaces have. *)
Definition get_blit (σ : World) (r : ref) : result unit :=
  match heap σ !! r with
  | Some (OSurface _) => Ok tt
  | _ => Raise (AttributeError "object has no attribute 'blit'")
  end.

Definition isinstance_str (o : pyobj) : bool :=
  match o with PyStr _ => true | _ => false end.

Definition isinstance_Surface (σ : World) (o : pyobj) : bool :=
  match o with
  | PyRef r => is_Ok (get_surface σ r)
  | _ => false
  end.

(** [Surface.blit(source, dest)]: [source] is composited onto the
    surface at [dest]; the size of the surface does not change. *)
Definition Surface_blit (screen source : ref) (dest : Z * Z) (σ : World)
  : result World :=
  try! scr := get_surface σ screen in
  try! src := get_surface σ source in
  Ok (store screen
        (OSurface {| surf_w := surf_w scr; surf_h := surf_h scr;
                     surf_paint := Blitted (surf_paint scr) (surf_paint src) dest |})
        σ).

(** ** class GameElement *)

Section Class.
Context (pf : Platform).

Definition uninitialized_message (class_name : string) : string :=
  "Pygame must be initialized before creating a " +:+ class_name +:+
  " object. Please call pygame.init() before using this class.".

Definition image_message : string :=
  "The image parameter must be either a file path or a pygame.Surface object.".

(** [pygame.image.load(path).convert_alpha()]: a new surface. *)
Definition image_load_convert_alpha (path : string) (σ : World)
  : result (ref * World) :=
  try! wh := image_load pf path in
  let r := fresh (dom (heap σ)) in
  Ok (r, store r (OSurface {| surf_w := fst wh; surf_h := snd wh;
                              surf_paint := Pixels path |}) σ).

(** [__init__(self, image, x, y, velocity, collidable)], run on the new
    object [self] of class [class_name]. *)
Definition __init__ (self : ref) (class_name : string) (img : pyobj)
    (x y : Z) (v : Vector2.t) (c : bool) (σ : World) : result World :=
  if negb (pg_initialized σ) then
    Raise (RuntimeError (uninitialized_message class_name))
  else
    try! loaded :=
      match img with
      | PyStr path => image_load_convert_alpha path σ
      | PyRef r =>
          if isinstance_Surface σ img then Ok (r, σ)
          else Raise (ValueError image_message)
      | _ => Raise (ValueError image_message)
      end in
    try! s := get_surface (snd loaded) (fst loaded) in
    try! r := Surface_get_rect s x y in
    Ok (store self
          (OElement {| image := fst loaded; rect := r; velocity := v;
                       collidable := c |})
          (snd loaded)).

(** The call [GameElement(image, x, y, velocity, collidable)] (or of a
    subclass that inherits [__init__]): a new object, then [__init__]. *)
Definition new (class_name : string) (img : pyobj) (x y : Z)
    (v : Vector2.t) (c : bool) (σ : World) : result (ref * World) :=
  let self := fresh (dom (heap σ)) in
  try! σ' := __init__ self class_name img x y v c (store self OBlank σ) in
  Ok (self, σ').

(** [update(self, dt, events, screen)]. *)
Definition update (self : ref) (dt : Z) (events : option (list Event))
    (screen : option ref) (σ : World) : result World :=
  try! e := get_element σ self in
  try! dx := float_mul_int (Vector2.x (velocity e)) dt in
  try! dy := float_mul_int (Vector2.y (velocity e)) dt in
  try! r := Rect_move_ip pf (rect e) (PyFloat dx) (PyFloat dy) in
  Ok (store self (OElement (set_rect e r)) σ).

(** [collided_with(self, other_element)]: [pass]. *)
Definition collided_with (self other_element : ref) (σ : World)
  : result World :=
  Ok σ.

(** [draw(self, screen)]: the method [screen.blit] is looked up, then
    the arguments are evaluated, then the method is called. *)
Definition draw (self : ref) (screen : ref) (σ : World) : result World :=
  try! _ := get_blit σ screen in
  try! e := get_element σ self in
  Surface_blit screen (image e) (Rect.topleft (rect e)) σ.
End Class.

(** ** The frame loop *)

(** The calls a frame loop makes on the objects of the store. *)
Inductive call : Type :=
  | CallUpdate (self : ref) (dt : Z) (events : option (list Event))
      (screen : option ref)
  | CallCollidedWith (self other_element : ref)
  | CallDraw (self screen : ref).

Definition run_call (pf : Platform) (c : call) (σ : World) : result World :=
  match c with
  | CallUpdate self dt events screen => update pf self dt events screen σ
  | CallCollidedWith self other => collided_with self other σ
  | CallDraw self screen => draw self screen σ
  end.

(** A sequence of calls; a call that raises leaves the store as it was
    and the loop goes on with the next one. *)
Fixpoint run_calls (pf : Platform) (cs : list call) (σ : World) : World :=
  match cs with
  | [] => σ
  | c :: cs' =>
      match run_call pf c σ with
      | Ok σ' => run_calls pf cs' σ'
      | Raise _ => run_calls pf cs' σ
      end
  end.

(** ** Observations *)

Definition position (σ : World) (self : ref) : option (Z * Z) :=
  match get_element σ self with
  | Ok e => Some (Rect.topleft (rect e))
  | Raise _ => None
  end.

(** The size of the image that an [image] argument denotes: that of the
    file at a path, or of the surface referred to. *)
Definition image_size (pf : Platform) (σ : World) (img : pyobj) : option (Z * Z) :=
  match img with
  | PyStr path =>
      match image_load pf path with Ok wh => Some wh | Raise _ => None end
  | PyRef r =>
      match get_surface σ r with
      | Ok s => Some (surf_w s, surf_h s)
      | Raise _ => None
      end
  | _ => None
  end.

(** [displacement f k]: the double [f] is finite and [k], its value
    rounded toward zero, is a C int. *)
Definition displacement (f : spec_float) (k : Z) : Prop :=
  SF_finite f = true /\ rounds_toward_zero (SF2Q f) k /\ c_int_range k.

(** [whole f k]: the double [f] is the integer [k]. *)
Definition whole (f : spec_float) (k : Z) : Prop :=
  SF_finite f = true /\ (SF2Q f == inject_Z k)%Q.

(** A mantissa [m] and an exponent [e] stand for the positive integer
    [v]: [m * 2^e = v], with no bit below the binary point. *)
Definition stands_for (m : positive) (e : Z) (v : positive) : Prop :=
  e <= 0 /\ Z.pos m = Z.pos v * 2 ^ (- e).

(** [exact_int f n]: the double [f] is the integer [n], with a mantissa
    and an exponent that stand for it. *)
Definition exact_int (f : spec_float) (n : Z) : Prop :=
  match f with
  | S754_zero _ => n = 0
  | S754_finite s m e => exists v, stands_for m e v /\ n = cond_Zopp s (Z.pos v)
  | _ => False
  end.

(** The rectangle of [e] with its top-left corner at [(x, y)]. *)
Definition rect_at (e : GameElement) (x y : Z) : Rect.t :=
  Rect.make x y (Rect.w (rect e)) (Rect.h (rect e)).

(** *** The statements of the specification on [update], as written

    "[update(dt)] translates rect's position by exactly
    [(velocity.x * dt, velocity.y * dt)]". *)
Definition update_translates_exactly (pf : Platform) : Prop :=
  forall σ self e dt events screen σ' e' dx dy,
    get_element σ self = Ok e ->
    update pf self dt events screen σ = Ok σ' ->
    get_element σ' self = Ok e' ->
    float_mul_int (Vector2.x (velocity e)) dt = Ok dx ->
    float_mul_int (Vector2.y (velocity e)) dt = Ok dy ->
    (inject_Z (Rect.x (rect e')) == inject_Z (Rect.x (rect e)) + SF2Q dx)%Q /\
    (inject_Z (Rect.y (rect e')) == inject_Z (Rect.y (rect e)) + SF2Q dy)%Q.

(** "[update(dt1)] then [update(dt2)]: the resulting position equals the
    initial position + [(vx*(dt1+dt2), vy*(dt1+dt2))]". *)
Definition update_composes_linearly (pf : Platform) : Prop :=
  forall σ self e dt1 dt2 σ1 σ2 e2 sx sy,
    get_element σ self = Ok e ->
    update pf self dt1 None None σ = Ok σ1 ->
    update pf self dt2 None None σ1 = Ok σ2 ->
    get_element σ2 self = Ok e2 ->
    float_mul_int (Vector2.x (velocity e)) (dt1 + dt2) = Ok sx ->
    float_mul_int (Vector2.y (velocity e)) (dt1 + dt2) = Ok sy ->
    (inject_Z (Rect.x (rect e2)) == inject_Z (Rect.x (rect e)) + SF2Q sx)%Q /\
    (inject_Z (Rect.y (rect e2)) == inject_Z (Rect.y (rect e)) + SF2Q sy)%Q.

(** "For every element and every [dt], the displacement that
    [update(dt)] applies to each coordinate is velocity times [dt]
    truncated toward zero to an integer". *)
Definition update_always_truncates (pf : Platform) : Prop :=
  forall σ self e dt events screen σ' e' dx dy,
    get_element σ self = Ok e ->
    update pf self dt events screen σ = Ok σ' ->
    get_element σ' self = Ok e' ->
    float_mul_int (Vector2.x (velocity e)) dt = Ok dx ->
    float_mul_int (Vector2.y (velocity e)) dt = Ok dy ->
    rounds_toward_zero (SF2Q dx) (Rect.x (rect e') - Rect.x (rect e)) /\
    rounds_toward_zero (SF2Q dy) (Rect.y (rect e') - Rect.y (rect e)).

(** "An image argument that is neither a string nor a surface: the
    construction fails with [ValueError]". *)
Definition bad_image_always_ValueError (pf : Platform) : Prop :=
  forall class_name img x y v c σ,
    isinstance_str img = false ->
    isinstance_Surface σ img = false ->
    exists msg, new pf class_name img x y v c σ = Raise (ValueError msg).

(** ** Sample data *)

(** An x86-64 Linux machine with one image file, [ship.png], 32 by 16. *)
Definition x86_64 : Platform := {|
  cast_undefined := fun _ => INT_MIN;
  image_load := fun path =>
    if String.eqb path "ship.png" then Ok (32, 16)
    else Raise (OSError "No such file or directory");
|}.

(** The doubles that the literals [0.1], [0.05] and [0.5] denote: the
    nearest doubles to 1/10, 1/20 and 1/2. *)
Definition f_0_1 : spec_float := float_div (float_of_Z 1) (float_of_Z 10).
Definition f_0_05 : spec_float := float_div (float_of_Z 1) (float_of_Z 20).
Definition f_0_5 : spec_float := float_div (float_of_Z 1) (float_of_Z 2).

(** pygame initialised, and a 32 by 16 surface at reference 1. *)
Definition scenario_world : World := {|
  pg_initialized := true;
  heap := {[ 1%positive := OSurface {| surf_w := 32; surf_h := 16;
                                        surf_paint := Pixels "sprite" |} ]};
|}.

Definition scenario_velocity : Vector2.t := Vector2.make f_0_1 (SFopp f_0_05).

(** The same world before [pygame.init()]. *)
Definition uninitialized_world : World := {|
  pg_initialized := false;
  heap := heap scenario_world;
|}.

(** An element at the origin that moves half a pixel per millisecond to
    the right, with the surface 1 as its image, at reference 2. *)
Definition slow_element : GameElement := {|
  image := 1%positive;
  rect := Rect.make 0 0 32 16;
  velocity := Vector2.make f_0_5 (S754_zero false);
  collidable := true;
|}.

Definition slow_world : World := store 2 (OElement slow_element) scenario_world.

(** An element at rest at (5, 7), with the velocity that the constructor
    gives by default, at reference 2. *)
Definition resting_element : GameElement := {|
  image := 1%positive;
  rect := Rect.make 5 7 32 16;
  velocity := Vector2.make (float_of_Z 0) (float_of_Z 0);
  collidable := false;
|}.

Definition resting_world : World := store 2 (OElement resting_element) scenario_world.

(** The invariant of an element [self] on the store: its image is the
    surface [im], of size [(w, h)], and that is the size of its [rect]. *)
Definition keeps_image_size (σ : World) (self im : ref) (w h : Z) : Prop :=
  exists e s,
    get_element σ self = Ok e /\ image e = im /\
    get_surface σ im = Ok s /\ (surf_w s, surf_h s) = (w, h) /\
    Rect.size (rect e) = (w, h).

(** Evaluate the left-hand side of an equation on concrete data. *)
Ltac run_lhs :=
  match goal with
  | |- ?l = _ => let v := eval vm_compute in l in change l with v
  end.

(** * Properties *)

(** ** C ints and the integral part of a double *)

Lemma wrap_int_id z : c_int_range z -> wrap_int z = z.
Proof.
  unfold c_int_range, INT_MIN, INT_MAX, wrap_int. intros Hz.
  rewrite Z.mod_small; lia.
Qed.

Lemma wrap_int_range z : c_int_range (wrap_int z).
Proof.
  unfold c_int_range, INT_MIN, INT_MAX, wrap_int.
  pose proof (Z.mod_pos_bound (z + 2 ^ 31) (2 ^ 32)). lia.
Qed.

Lemma wrap_int_add_l a b : wrap_int (wrap_int a + b) = wrap_int (a + b).
Proof.
  unfold wrap_int.
  replace ((a + 2 ^ 31) mod 2 ^ 32 - 2 ^ 31 + b + 2 ^ 31)
    with ((a + 2 ^ 31) mod 2 ^ 32 + b) by lia.
  rewrite Zplus_mod_idemp_l. f_equal. f_equal. lia.
Qed.

Lemma in_int_range_spec z : in_int_range z = true <-> c_int_range z.
Proof.
  unfold in_int_range, c_int_range.
  rewrite andb_true_iff, !Z.leb_le. tauto.
Qed.

Lemma cond_Zopp_quot s a b :
  b <> 0 -> Z.quot (cond_Zopp s a) b = cond_Zopp s (Z.quot a b).
Proof.
  intros Hb. destruct s; simpl; [now apply Z.quot_opp_l | reflexivity].
Qed.

(** Shifting the mantissa is rounding the value toward zero. *)
Lemma SFtrunc_Qtruncate f :
  SF_finite f = true -> SFtrunc f = Some (Qtruncate (SF2Q f)).
Proof.
  destruct f as [ | | |s m e]; simpl; try discriminate; intros _.
  - reflexivity.
  - f_equal. unfold Qtruncate. destruct e as [|p|p]; simpl Qnum; simpl Qden.
    + rewrite Z.quot_1_r. simpl. now rewrite Z.mul_1_r.
    + rewrite Z.quot_1_r, Z.shiftl_mul_pow2 by lia.
      destruct s; simpl; lia.
    + rewrite cond_Zopp_quot by lia. f_equal.
      change (Z.shiftl (Z.pos m) (Z.neg p)) with (Z.shiftr (Z.pos m) (Z.pos p)).
      rewrite Z.shiftr_div_pow2 by lia.
      rewrite Pos2Z.inj_pow. symmetry. apply Z.quot_div_nonneg; lia.
Qed.

Lemma Qtruncate_small q : (Qabs q < 1)%Q -> Qtruncate q = 0.
Proof.
  destruct q as [n d]. unfold Qlt, Qtruncate. simpl. intros H.
  apply Z.abs_0_iff. rewrite <- Z.quot_abs by lia.
  apply Z.quot_small. lia.
Qed.

Lemma Qtruncate_whole q k : (q == inject_Z k)%Q -> Qtruncate q = k.
Proof.
  destruct q as [n d]. unfold Qeq, Qtruncate. simpl. intros H.
  rewrite Z.mul_1_r in H. subst n. apply Z.quot_mul. lia.
Qed.

Lemma rounds_toward_zero_Z n d k :
  rounds_toward_zero (n # d) k <->
  Z.abs k * Z.pos d <= Z.abs n /\ Z.abs n < (Z.abs k + 1) * Z.pos d /\ 0 <= k * n.
Proof.
  unfold rounds_toward_zero, Qle, Qlt. simpl.
  rewrite !Z.mul_1_r. reflexivity.
Qed.

Lemma Z_quot_nonneg n d :
  0 <= n -> 0 < d ->
  0 <= Z.quot n d /\ Z.quot n d * d <= n < (Z.quot n d + 1) * d.
Proof.
  intros Hn Hd. rewrite Z.quot_div_nonneg by lia.
  pose proof (Z.div_mod n d ltac:(lia)).
  pose proof (Z.mod_pos_bound n d ltac:(lia)).
  pose proof (Z.div_pos n d ltac:(lia) ltac:(lia)). nia.
Qed.

Lemma Z_quot_unique_nonneg n d k :
  0 <= n -> 0 < d -> 0 <= k -> k * d <= n < (k + 1) * d -> k = Z.quot n d.
Proof.
  intros Hn Hd Hk Hbounds. rewrite Z.quot_div_nonneg by lia.
  apply (Z.div_unique n d k (n - d * k)); lia.
Qed.

Lemma Z_quot_toward_zero n d k :
  0 < d ->
  (Z.abs k * d <= Z.abs n /\ Z.abs n < (Z.abs k + 1) * d /\ 0 <= k * n) <->
  k = Z.quot n d.
Proof.
  intros Hd. destruct (Z.le_gt_cases 0 n) as [Hn|Hn].
  - split.
    + intros (H1 & H2 & H3). apply Z_quot_unique_nonneg; try lia; nia.
    + intros ->. destruct (Z_quot_nonneg n d Hn Hd) as (H0 & H1).
      rewrite !Z.abs_eq by lia. nia.
  - replace n with (- (- n)) by lia. rewrite Z.quot_opp_l by lia.
    rewrite Z.abs_opp.
    destruct (Z_quot_nonneg (- n) d ltac:(lia) Hd) as (H0 & H1).
    split.
    + intros (H1' & H2' & H3').
      assert (Hk : - k = Z.quot (- n) d)
        by (apply Z_quot_unique_nonneg; try lia; nia).
      lia.
    + intros ->. rewrite Z.abs_opp, !Z.abs_eq by lia. nia.
Qed.

(** [Qtruncate] computes the rounding toward zero, which is unique. *)
Lemma rounds_toward_zero_iff q k : rounds_toward_zero q k <-> k = Qtruncate q.
Proof.
  destruct q as [n d]. rewrite rounds_toward_zero_Z. unfold Qtruncate. simpl.
  apply Z_quot_toward_zero. lia.
Qed.

Lemma c_double_to_int_displacement pf f k :
  displacement f k -> c_double_to_int pf f = k.
Proof.
  intros (Hfin & Hk & Hrange). apply rounds_toward_zero_iff in Hk as ->.
  unfold c_double_to_int. rewrite (SFtrunc_Qtruncate f Hfin).
  apply in_int_range_spec in Hrange. now rewrite Hrange.
Qed.

Lemma whole_displacement f k : whole f k -> c_int_range k -> displacement f k.
Proof.
  intros (Hfin & Heq) Hk. split; [assumption|].
  split; [|assumption].
  apply rounds_toward_zero_iff. symmetry. now apply Qtruncate_whole.
Qed.

(** ** Doubles that are integers *)

Lemma digits2_pos_bounds m :
  2 ^ (Z.pos (digits2_pos m) - 1) <= Z.pos m < 2 ^ Z.pos (digits2_pos m).
Proof.
  induction m as [m IH|m IH|]; simpl digits2_pos.
  - rewrite Pos2Z.inj_succ.
    replace (Z.succ (Z.pos (digits2_pos m)) - 1) with (Z.succ (Z.pos (digits2_pos m) - 1)) by lia.
    rewrite !Z.pow_succ_r by lia. lia.
  - rewrite Pos2Z.inj_succ.
    replace (Z.succ (Z.pos (digits2_pos m)) - 1) with (Z.succ (Z.pos (digits2_pos m) - 1)) by lia.
    rewrite !Z.pow_succ_r by lia. lia.
  - simpl. lia.
Qed.

(** The number of bits is determined by the bounds. *)
Lemma digits2_pos_unique m d :
  2 ^ (d - 1) <= Z.pos m < 2 ^ d -> Z.pos (digits2_pos m) = d.
Proof.
  intros [Hlo Hhi]. pose proof (digits2_pos_bounds m) as [Hlo' Hhi'].
  set (d' := Z.pos (digits2_pos m)) in *.
  assert (0 < d) by (destruct (Z.lt_ge_cases 0 d); [lia|]; rewrite Z.pow_neg_r in Hlo by lia; 
    destruct (Z.eq_dec d 0); [subst; simpl in *; lia| rewrite Z.pow_neg_r in Hhi by lia; lia]).
  destruct (Z.lt_trichotomy d d') as [Hlt|[Heq|Hgt]]; [|exact (eq_sym Heq)|].
  - assert (2 ^ d <= 2 ^ (d' - 1)) by (apply Z.pow_le_mono_r; lia). lia.
  - assert (2 ^ d' <= 2 ^ (d - 1)) by (apply Z.pow_le_mono_r; lia). lia.
Qed.

Lemma iter_xO_mul m p : Z.pos (Pos.iter xO m p) = Z.pos m * 2 ^ Z.pos p.
Proof.
  induction p as [|p IH] using Pos.peano_ind.
  - simpl. lia.
  - rewrite Pos.iter_succ, Pos2Z.inj_succ, Z.pow_succ_r by lia.
    rewrite Pos2Z.inj_xO, IH. lia.
Qed.

Lemma pow2_xO p : 2 ^ Z.pos p~0 = 2 ^ Z.pos p * 2 ^ Z.pos p.
Proof.
  assert (H : Z.pos p~0 = Z.pos p + Z.pos p) by lia.
  rewrite H. now rewrite Z.pow_add_r by lia.
Qed.

Lemma pow2_xI p : 2 ^ Z.pos p~1 = 2 ^ Z.pos p * 2 ^ Z.pos p * 2.
Proof.
  assert (H : Z.pos p~1 = Z.pos p + Z.pos p + 1) by lia.
  rewrite H, !Z.pow_add_r by lia. lia.
Qed.

Lemma shr_1_double z :
  shr_1 {| shr_m := 2 * z; shr_r := false; shr_s := false |}
  = {| shr_m := z; shr_r := false; shr_s := false |}.
Proof. destruct z; reflexivity. Qed.

(** Shifting out [p] zero bits is exact. *)
Lemma iter_shr_1_exact p q :
  SpecFloat.iter_pos shr_1 p
    {| shr_m := 2 ^ Z.pos p * q; shr_r := false; shr_s := false |}
  = {| shr_m := q; shr_r := false; shr_s := false |}.
Proof.
  revert q. induction p as [p IH|p IH|]; intros q.
  - replace (2 ^ Z.pos p~1 * q) with (2 * (2 ^ Z.pos p * (2 ^ Z.pos p * q)))
      by (rewrite pow2_xI; lia).
    change (SpecFloat.iter_pos shr_1 p~1 ?x)
      with (SpecFloat.iter_pos shr_1 p (SpecFloat.iter_pos shr_1 p (shr_1 x))).
    rewrite shr_1_double, !IH. reflexivity.
  - replace (2 ^ Z.pos p~0 * q) with (2 ^ Z.pos p * (2 ^ Z.pos p * q))
      by (rewrite pow2_xO; lia).
    change (SpecFloat.iter_pos shr_1 p~0 ?x)
      with (SpecFloat.iter_pos shr_1 p (SpecFloat.iter_pos shr_1 p x)).
    rewrite !IH. reflexivity.
  - apply shr_1_double.
Qed.

Lemma fexp_small d : 1 <= d -> fexp prec emax d = d - 53.
Proof. unfold fexp, SpecFloat.emin, prec, emax. lia. Qed.

(** The number of bits of [v * 2 ^ k]. *)
Lemma Zdigits2_shift v k M :
  0 <= k -> Z.pos M = Z.pos v * 2 ^ k ->
  Zdigits2 (Z.pos M) = Z.pos (digits2_pos v) + k.
Proof.
  intros Hk HM. simpl. apply digits2_pos_unique.
  pose proof (digits2_pos_bounds v) as [Hlo Hhi].
  replace (Z.pos (digits2_pos v) + k - 1) with (Z.pos (digits2_pos v) - 1 + k) by lia.
  rewrite !Z.pow_add_r by lia. rewrite HM.
  assert (0 < 2 ^ k) by (apply Z.pow_pos_nonneg; lia). nia.
Qed.

(** Rounding a mantissa and exponent that stand for an integer below
    2^53 is exact. *)
Lemma binary_round_aux_exact s M E v :
  stands_for M E v -> Z.pos v < 2 ^ 53 ->
  exists m e,
    binary_round_aux prec emax s (Z.pos M) E loc_Exact = S754_finite s m e /\
    stands_for m e v.
Proof.
  intros [HE HM] Hv.
  pose proof (digits2_pos_bounds v) as [Hlo Hhi].
  set (d := Z.pos (digits2_pos v)) in *.
  assert (Hd : 1 <= d <= 53).
  { split; [unfold d; lia|].
    destruct (Z.le_gt_cases d 53) as [|Hgt]; [assumption|].
    assert (2 ^ 53 <= 2 ^ (d - 1)) by (apply Z.pow_le_mono_r; lia). lia. }
  assert (Hdig : Zdigits2 (Z.pos M) = d + - E) by (apply Zdigits2_shift; [lia|exact HM]).
  (* the first shift *)
  assert (Hfirst : exists m' e',
            shr_fexp prec emax (Z.pos M) E loc_Exact
              = ({| shr_m := Z.pos m'; shr_r := false; shr_s := false |}, e') /\
            stands_for m' e' v /\ d - 53 <= e').
  { unfold shr_fexp. rewrite Hdig.
    replace (d + - E + E) with d by lia. rewrite fexp_small by lia.
    destruct (d - 53 - E) as [|p|p] eqn:Hn.
    - exists M, E. repeat split; try assumption; lia.
    - assert (Hpow : 2 ^ (- E) = 2 ^ Z.pos p * 2 ^ (53 - d)).
      { rewrite <- Z.pow_add_r by lia. f_equal. lia. }
      assert (Hpos : 0 < Z.pos v * 2 ^ (53 - d))
        by (apply Z.mul_pos_pos; [lia | apply Z.pow_pos_nonneg; lia]).
      destruct (Z.pos v * 2 ^ (53 - d)) as [|m'|] eqn:Hm'; try lia.
      exists m', (E + Z.pos p). split.
      + simpl shr. f_equal.
        replace (Z.pos M) with (2 ^ Z.pos p * Z.pos m') by (rewrite HM, Hpow, <- Hm'; ring).
        apply iter_shr_1_exact.
      + split; [split; [lia|]|lia].
        rewrite <- Hm'. f_equal. f_equal. lia.
    - exists M, E. repeat split; try assumption; lia. }
  destruct Hfirst as (m' & e' & Hshr & [He' Hm'] & Hlow).
  unfold binary_round_aux. rewrite Hshr. simpl shr_m. simpl loc_of_shr_record.
  simpl round_nearest_even.
  assert (Hdig' : Zdigits2 (Z.pos m') = d + - e') by (apply Zdigits2_shift; [lia|exact Hm']).
  unfold shr_fexp. rewrite Hdig'.
  replace (d + - e' + e') with d by lia. rewrite fexp_small by lia.
  assert (Hnoshift : forall r, shr r e' (d - 53 - e') = (r, e')).
  { intros r. destruct (d - 53 - e') eqn:Hn; try reflexivity. lia. }
  rewrite Hnoshift. simpl shr_m.
  assert (Hle : (e' <=? emax - prec) = true) by (apply Z.leb_le; unfold emax, prec; lia).
  rewrite Hle. exists m', e'. split; [reflexivity|]. split; assumption.
Qed.

Lemma binary_round_exact s v :
  Z.pos v < 2 ^ 53 ->
  exact_int (binary_round prec emax s v 0) (cond_Zopp s (Z.pos v)).
Proof.
  intros Hv. unfold binary_round.
  pose proof (digits2_pos_bounds v) as [Hlo Hhi].
  set (d := Z.pos (digits2_pos v)) in *.
  assert (Hd : 1 <= d <= 53).
  { split; [unfold d; lia|].
    destruct (Z.le_gt_cases d 53) as [|Hgt]; [assumption|].
    assert (2 ^ 53 <= 2 ^ (d - 1)) by (apply Z.pow_le_mono_r; lia). lia. }
  rewrite Z.add_0_r, fexp_small by lia.
  assert (Halign : exists mz ez, shl_align v 0 (d - 53) = (mz, ez) /\ stands_for mz ez v).
  { unfold shl_align. destruct (d - 53 - 0) as [|p|p] eqn:Hn.
    - exists v, 0. split; [reflexivity|]. split; [lia|]. simpl. lia.
    - lia.
    - exists (Pos.iter xO v p), (d - 53). split; [reflexivity|].
      split; [lia|]. rewrite iter_xO_mul. f_equal. f_equal. lia. }
  destruct Halign as (mz & ez & -> & Hstands).
  destruct (binary_round_aux_exact s mz ez v Hstands Hv) as (m & e & -> & Hme).
  exists v. split; [exact Hme | reflexivity].
Qed.

Lemma float_of_Z_exact n : Z.abs n < 2 ^ 53 -> exact_int (float_of_Z n) n.
Proof.
  intros Hn. unfold float_of_Z, binary_normalize. destruct n as [|v|v].
  - reflexivity.
  - apply (binary_round_exact false v). lia.
  - apply (binary_round_exact true v). lia.
Qed.

Lemma cond_Zopp_mul s1 s2 a b :
  cond_Zopp s1 a * cond_Zopp s2 b = cond_Zopp (xorb s1 s2) (a * b).
Proof. destruct s1, s2; simpl; lia. Qed.

Lemma float_mul_exact f g a b :
  exact_int f a -> exact_int g b -> Z.abs (a * b) < 2 ^ 53 ->
  exact_int (float_mul f g) (a * b).
Proof.
  intros Hf Hg Hab.
  destruct f as [sf| | |sf mf ef], g as [sg| | |sg mg eg]; simpl in Hf, Hg;
    try contradiction.
  - subst. reflexivity.
  - subst. reflexivity.
  - subst. simpl. lia.
  - destruct Hf as (va & [Hea Hma] & ->), Hg as (vb & [Heb Hmb] & ->).
    rewrite cond_Zopp_mul in *. unfold float_mul, SFmul.
    assert (Hstands : stands_for (mf * mg) (ef + eg) (va * vb)).
    { split; [lia|]. rewrite !Pos2Z.inj_mul, Hma, Hmb.
      replace (- (ef + eg)) with (- ef + - eg) by lia.
      rewrite Z.pow_add_r by lia. ring. }
    assert (Hv : Z.pos (va * vb) < 2 ^ 53).
    { destruct (xorb sf sg); simpl in Hab; lia. }
    destruct (binary_round_aux_exact (xorb sf sg) (mf * mg) (ef + eg) (va * vb)
                Hstands Hv) as (m & e & -> & Hme).
    exists (va * vb)%positive. split; [exact Hme | reflexivity].
Qed.

Lemma exact_int_whole f n : exact_int f n -> whole f n.
Proof.
  destruct f as [s| | |s m e]; simpl; try contradiction.
  - intros ->. split; reflexivity.
  - intros (v & [He Hm] & ->). split; [reflexivity|].
    unfold SF2Q. destruct e as [|p|p]; try lia.
    + unfold Qeq. simpl Qnum. simpl Qden.
      change (- 0) with 0 in Hm. rewrite Z.pow_0_r in *.
      destruct s; simpl cond_Zopp; lia.
    + unfold Qeq. simpl Qnum. simpl Qden.
      change (- Z.neg p) with (Z.pos p) in Hm.
      rewrite Pos2Z.inj_pow, Z.mul_1_r. destruct s; simpl cond_Zopp; lia.
Qed.

Lemma py_float_of_int_exact n :
  Z.abs n < 2 ^ 53 ->
  py_float_of_int n = Ok (float_of_Z n) /\ exact_int (float_of_Z n) n.
Proof.
  intros Hn. pose proof (float_of_Z_exact n Hn) as Hexact.
  split; [|exact Hexact]. unfold py_float_of_int.
  destruct (float_of_Z n); simpl in Hexact; try contradiction; reflexivity.
Qed.

(** The product of a whole double and an int, when it is a C int. *)
Lemma float_mul_int_whole a n :
  Z.abs a < 2 ^ 53 -> Z.abs n < 2 ^ 53 -> c_int_range (a * n) ->
  exists p, float_mul_int (float_of_Z a) n = Ok p /\ whole p (a * n).
Proof.
  intros Ha Hn Hrange. destruct (py_float_of_int_exact n Hn) as [Hconv Hexact].
  exists (float_mul (float_of_Z a) (float_of_Z n)). split.
  - unfold float_mul_int. now rewrite Hconv.
  - apply exact_int_whole, float_mul_exact.
    + now apply float_of_Z_exact.
    + exact Hexact.
    + unfold c_int_range, INT_MIN, INT_MAX in Hrange. lia.
Qed.

(** ** The store *)

Lemma get_element_Ok σ self e :
  get_element σ self = Ok e <-> heap σ !! self = Some (OElement e).
Proof.
  unfold get_element. destruct (heap σ !! self) as [[]|]; split; congruence.
Qed.

Lemma get_surface_Ok σ r s :
  get_surface σ r = Ok s <-> heap σ !! r = Some (OSurface s).
Proof.
  unfold get_surface. destruct (heap σ !! r) as [[]|]; split; congruence.
Qed.

Lemma heap_store_eq r o σ : heap (store r o σ) !! r = Some o.
Proof. simpl. apply lookup_insert_eq. Qed.

Lemma heap_store_ne r r' o σ : r <> r' -> heap (store r o σ) !! r' = heap σ !! r'.
Proof. intros Hne. simpl. now apply lookup_insert_ne. Qed.

Lemma store_store r o o' σ : store r o (store r o' σ) = store r o σ.
Proof. unfold store. simpl. f_equal. apply insert_insert_eq. Qed.

Lemma get_element_store_eq r e σ : get_element (store r (OElement e) σ) r = Ok e.
Proof. apply get_element_Ok, heap_store_eq. Qed.

Lemma get_element_store_ne r r' o σ :
  r <> r' -> get_element (store r o σ) r' = get_element σ r'.
Proof. intros Hne. unfold get_element. now rewrite heap_store_ne. Qed.

Lemma get_surface_store_ne r r' o σ :
  r <> r' -> get_surface (store r o σ) r' = get_surface σ r'.
Proof. intros Hne. unfold get_surface. now rewrite heap_store_ne. Qed.

(** A reference cannot hold a surface and an element at once. *)
Lemma surface_not_element σ r r' s e :
  get_surface σ r = Ok s -> get_element σ r' = Ok e -> r <> r'.
Proof.
  intros Hs He ->. apply get_surface_Ok in Hs. apply get_element_Ok in He.
  congruence.
Qed.

(** ** [update] *)

(** What a call of [update] that computes both products does. *)
Lemma update_Ok pf σ self e dt events screen dx dy :
  get_element σ self = Ok e ->
  float_mul_int (Vector2.x (velocity e)) dt = Ok dx ->
  float_mul_int (Vector2.y (velocity e)) dt = Ok dy ->
  update pf self dt events screen σ =
  Ok (store self
        (OElement (set_rect e
           (rect_at e (wrap_int (Rect.x (rect e) + c_double_to_int pf dx))
                      (wrap_int (Rect.y (rect e) + c_double_to_int pf dy)))))
        σ).
Proof.
  intros He Hx Hy. unfold update. rewrite He. simpl. rewrite Hx. simpl.
  rewrite Hy. reflexivity.
Qed.

(** [update] on an int that no double can hold raises, and moves nothing. *)
Lemma update_Raise pf σ self e dt events screen ex :
  get_element σ self = Ok e ->
  py_float_of_int dt = Raise ex ->
  update pf self dt events screen σ = Raise ex.
Proof.
  intros He Hdt. unfold update, float_mul_int. rewrite He. simpl.
  now rewrite Hdt.
Qed.

(** Whatever the cast yields beyond the C ints, a product of 2^39 is
    not added to a coordinate: the coordinate after the call is a C int. *)
Lemma update_always_truncates_fails pf : ~ update_always_truncates pf.
Proof.
  intros Hclaim.
  assert (Hconv : py_float_of_int (2 ^ 40) = Ok (float_of_Z (2 ^ 40)))
    by (vm_compute; reflexivity).
  assert (Hq : Qtruncate (SF2Q (float_mul f_0_5 (float_of_Z (2 ^ 40)))) = 2 ^ 39)
    by (vm_compute; reflexivity).
  assert (Hdx : float_mul_int (Vector2.x (velocity slow_element)) (2 ^ 40)
                = Ok (float_mul f_0_5 (float_of_Z (2 ^ 40))))
    by (unfold float_mul_int; now rewrite Hconv).
  assert (Hdy : float_mul_int (Vector2.y (velocity slow_element)) (2 ^ 40)
                = Ok (float_mul (S754_zero false) (float_of_Z (2 ^ 40))))
    by (unfold float_mul_int; now rewrite Hconv).
  remember (float_mul f_0_5 (float_of_Z (2 ^ 40))) as p eqn:Hp.
  remember (float_mul (S754_zero false) (float_of_Z (2 ^ 40))) as q eqn:Hq'.
  assert (He : get_element slow_world 2 = Ok slow_element) by reflexivity.
  pose proof (update_Ok pf slow_world 2%positive slow_element (2 ^ 40) None None
                p q He Hdx Hdy) as Hupd.
  destruct (Hclaim slow_world 2%positive slow_element (2 ^ 40) None None _ _ p q
              He Hupd (get_element_store_eq _ _ _) Hdx Hdy) as [Hx _].
  apply rounds_toward_zero_iff in Hx. rewrite Hq in Hx.
  cbn [set_rect rect_at rect Rect.x] in Hx.
  pose proof (wrap_int_range (Rect.x (rect slow_element) + c_double_to_int pf p))
    as [_ Hmax].
  assert (H0 : Rect.x (rect slow_element) = 0) by reflexivity.
  unfold INT_MAX in Hmax. lia.
Qed.

(** C10 as stated fails beyond the C ints: at half a pixel per
    millisecond, [update(2^40)] computes the product 2^39 and, on x86-64,
    moves the element to [INT_MIN]. *)
Lemma update_always_truncates_counterexample :
  (exists p, float_mul_int (Vector2.x (velocity slow_element)) (2 ^ 40) = Ok p /\
             whole p (2 ^ 39)) /\
  (exists σ', update x86_64 2 (2 ^ 40) None None slow_world = Ok σ' /\
              position σ' 2 = Some (INT_MIN, 0)) /\
  ~ update_always_truncates x86_64.
Proof.
  split.
  { eexists. split; [run_lhs; reflexivity|]. split; reflexivity. }
  split.
  { eexists. split; [run_lhs; reflexivity|]. reflexivity. }
  apply update_always_truncates_fails.
Qed.

(** C10 (amended).  [update(dt)] adds to each coordinate of [rect], in C
    int arithmetic, what the cast [(int)dv] makes of the product of the
    velocity and [dt]: that is the product rounded toward zero to an
    integer whenever the product is finite and that integer is a C int;
    the coordinates are C ints after the call; and a product of
    magnitude below 1 leaves the coordinate where it was.  An int [dt]
    that does not convert to a double raises [OverflowError] and moves
    nothing. *)
Theorem update_truncates_in_range pf σ self e dt events screen :
  get_element σ self = Ok e ->
  match py_float_of_int dt with
  | Raise ex => update pf self dt events screen σ = Raise ex
  | Ok fdt =>
      let dx := float_mul (Vector2.x (velocity e)) fdt in
      let dy := float_mul (Vector2.y (velocity e)) fdt in
      exists σ' e',
        update pf self dt events screen σ = Ok σ' /\
        get_element σ' self = Ok e' /\
        Rect.x (rect e') = wrap_int (Rect.x (rect e) + c_double_to_int pf dx) /\
        Rect.y (rect e') = wrap_int (Rect.y (rect e) + c_double_to_int pf dy) /\
        c_int_range (Rect.x (rect e')) /\ c_int_range (Rect.y (rect e')) /\
        (forall k, displacement dx k ->
           Rect.x (rect e') = wrap_int (Rect.x (rect e) + k)) /\
        (forall k, displacement dy k ->
           Rect.y (rect e') = wrap_int (Rect.y (rect e) + k)) /\
        (SF_finite dx = true -> (Qabs (SF2Q dx) < 1)%Q ->
           c_int_range (Rect.x (rect e)) ->
           Rect.x (rect e') = Rect.x (rect e)) /\
        (SF_finite dy = true -> (Qabs (SF2Q dy) < 1)%Q ->
           c_int_range (Rect.y (rect e)) ->
           Rect.y (rect e') = Rect.y (rect e))
  end.
Proof.
  intros He. destruct (py_float_of_int dt) as [fdt|ex] eqn:Hdt.
  - intros dx dy.
    assert (Hsmall : forall f z, SF_finite f = true -> (Qabs (SF2Q f) < 1)%Q ->
              c_int_range z -> wrap_int (z + c_double_to_int pf f) = z).
    { intros f z Hfin Hlt Hz.
      rewrite (c_double_to_int_displacement pf f 0).
      - rewrite Z.add_0_r. now apply wrap_int_id.
      - split; [exact Hfin|]. split.
        + apply rounds_toward_zero_iff. symmetry. now apply Qtruncate_small.
        + unfold c_int_range, INT_MIN, INT_MAX. lia. }
    eexists _, _. split.
    { apply update_Ok; [exact He| |]; unfold float_mul_int; now rewrite Hdt. }
    split; [apply get_element_store_eq|].
    cbn [set_rect rect_at rect Rect.x Rect.y].
    fold dx. fold dy.
    split; [reflexivity|]. split; [reflexivity|].
    split; [apply wrap_int_range|]. split; [apply wrap_int_range|].
    split.
    { intros k Hk. now rewrite (c_double_to_int_displacement pf dx k Hk). }
    split.
    { intros k Hk. now rewrite (c_double_to_int_displacement pf dy k Hk). }
    split; intros Hfin Hlt Hz; now apply Hsmall.
  - now apply update_Raise with (e := e).
Qed.

Lemma update_truncates_in_range_witness :
  get_element slow_world 2 = Ok slow_element /\
  displacement (float_mul f_0_5 (float_of_Z 5)) 2 /\
  (exists σ' e', update x86_64 2 5 None None slow_world = Ok σ' /\
                 get_element σ' 2 = Ok e' /\ Rect.topleft (rect e') = (2, 0)) /\
  (exists σ' e', update x86_64 2 1 None None slow_world = Ok σ' /\
                 get_element σ' 2 = Ok e' /\ Rect.topleft (rect e') = (0, 0)).
Proof.
  assert (Hr : forall k, -2 <= k <= 2 -> c_int_range k).
  { unfold c_int_range, INT_MIN, INT_MAX. lia. }
  assert (H2 : displacement (float_mul f_0_5 (float_of_Z 5)) 2).
  { split; [reflexivity|]. split; [apply rounds_toward_zero_iff; reflexivity|].
    apply Hr. lia. }
  assert (H0 : displacement (float_mul (S754_zero false) (float_of_Z 5)) 0).
  { split; [reflexivity|].
    split; [apply rounds_toward_zero_iff; reflexivity|]. apply Hr. lia. }
  split; [reflexivity|]. split; [exact H2|]. split.
  - pose proof (update_truncates_in_range x86_64 slow_world 2%positive
                  slow_element 5 None None eq_refl) as H.
    assert (Hconv : py_float_of_int 5 = Ok (float_of_Z 5)) by reflexivity.
    rewrite Hconv in H.
    destruct H as (σ' & e' & Hupd & He' & _ & _ & _ & _ & Hx & Hy & _).
    exists σ', e'. split; [exact Hupd|]. split; [exact He'|].
    unfold Rect.topleft. rewrite (Hx 2 H2), (Hy 0 H0). reflexivity.
  - pose proof (update_truncates_in_range x86_64 slow_world 2%positive
                  slow_element 1 None None eq_refl) as H.
    assert (Hconv : py_float_of_int 1 = Ok (float_of_Z 1)) by reflexivity.
    rewrite Hconv in H.
    destruct H as (σ' & e' & Hupd & He' & _ & _ & _ & _ & _ & _ & Hx & Hy).
    exists σ', e'. split; [exact Hupd|]. split; [exact He'|].
    unfold Rect.topleft. rewrite Hx, Hy; [reflexivity| | | | | |];
      try reflexivity; apply Hr; simpl; lia.
Defined.

(** The literal [0.1] is the double [7205759403792794 * 2^-56], a little
    above one tenth. *)
Example f_0_1_bits : f_0_1 = S754_finite false 7205759403792794 (-56).
Proof. reflexivity. Qed.

(** The four products of the scenario round to whole doubles: [0.1 * 100]
    is [10.0], [-0.05 * 200] is [-10.0]. *)
Example scenario_products_whole :
  (exists p, float_mul_int f_0_1 100 = Ok p /\ whole p 10) /\
  (exists p, float_mul_int (SFopp f_0_05) 100 = Ok p /\ whole p (-5)) /\
  (exists p, float_mul_int f_0_1 200 = Ok p /\ whole p 20) /\
  (exists p, float_mul_int (SFopp f_0_05) 200 = Ok p /\ whole p (-10)).
Proof.
  repeat split; eexists; (split; [run_lhs; reflexivity|]); split; reflexivity.
Qed.

(** C1 as stated fails on a fractional product: at half a pixel
    per millisecond, [update(1)] computes [0.5 * 1 = 0.5] and leaves the
    element where it was. *)
Lemma update_translates_exactly_counterexample :
  update x86_64 2 1 None None slow_world = Ok slow_world /\
  float_mul_int (Vector2.x (velocity slow_element)) 1 = Ok f_0_5 /\
  (SF2Q f_0_5 == 1 # 2)%Q /\
  ~ update_translates_exactly x86_64.
Proof.
  assert (Hupd : update x86_64 2 1 None None slow_world = Ok slow_world)
    by (vm_compute; reflexivity).
  split; [exact Hupd|]. split; [reflexivity|]. split; [reflexivity|].
  intros Hclaim.
  destruct (Hclaim slow_world 2%positive slow_element 1 None None slow_world
              slow_element f_0_5 (S754_zero false)
              eq_refl Hupd eq_refl eq_refl eq_refl) as [Hx _].
  vm_compute in Hx. discriminate Hx.
Qed.

(** C1 (amended).  [update(dt)] translates the top-left corner of [rect]
    in place by the two products [velocity.x * dt] and [velocity.y * dt],
    each rounded toward zero to an integer; when both products are whole
    numbers, as they are for a velocity in whole pixels per millisecond,
    this is exactly [(velocity.x * dt, velocity.y * dt)].  (The products
    are finite, and the integers and the new coordinates are C ints.)
    A 32 by 16 element constructed at (10, 20) with velocity
    (0.1, -0.05) is at (20, 15) after [update(100)] and at (40, 5) after a
    further [update(200)]. *)
Theorem update_translates_truncated pf :
  (forall σ self e dt events screen dx dy kx ky,
     get_element σ self = Ok e ->
     float_mul_int (Vector2.x (velocity e)) dt = Ok dx ->
     float_mul_int (Vector2.y (velocity e)) dt = Ok dy ->
     displacement dx kx -> displacement dy ky ->
     c_int_range (Rect.x (rect e) + kx) -> c_int_range (Rect.y (rect e) + ky) ->
     update pf self dt events screen σ =
       Ok (store self
             (OElement (set_rect e
                (rect_at e (Rect.x (rect e) + kx) (Rect.y (rect e) + ky))))
             σ)) /\
  (forall σ self e dt events screen dx dy kx ky,
     get_element σ self = Ok e ->
     float_mul_int (Vector2.x (velocity e)) dt = Ok dx ->
     float_mul_int (Vector2.y (velocity e)) dt = Ok dy ->
     whole dx kx -> whole dy ky -> c_int_range kx -> c_int_range ky ->
     c_int_range (Rect.x (rect e) + kx) -> c_int_range (Rect.y (rect e) + ky) ->
     exists σ' e',
       update pf self dt events screen σ = Ok σ' /\
       get_element σ' self = Ok e' /\
       (inject_Z (Rect.x (rect e')) == inject_Z (Rect.x (rect e)) + SF2Q dx)%Q /\
       (inject_Z (Rect.y (rect e')) == inject_Z (Rect.y (rect e)) + SF2Q dy)%Q /\
       Rect.size (rect e') = Rect.size (rect e)) /\
  (forall σ self e dt events screen a b,
     get_element σ self = Ok e ->
     velocity e = Vector2.make (float_of_Z a) (float_of_Z b) ->
     Z.abs a < 2 ^ 53 -> Z.abs b < 2 ^ 53 -> Z.abs dt < 2 ^ 53 ->
     c_int_range (a * dt) -> c_int_range (b * dt) ->
     c_int_range (Rect.x (rect e) + a * dt) ->
     c_int_range (Rect.y (rect e) + b * dt) ->
     update pf self dt events screen σ =
       Ok (store self
             (OElement (set_rect e
                (rect_at e (Rect.x (rect e) + a * dt) (Rect.y (rect e) + b * dt))))
             σ)) /\
  (exists self σ0 σ1 σ2 e0,
     new pf "GameElement" (PyRef 1) 10 20 scenario_velocity true scenario_world
       = Ok (self, σ0) /\
     get_element σ0 self = Ok e0 /\
     Rect.topleft (rect e0) = (10, 20) /\ Rect.size (rect e0) = (32, 16) /\
     update pf self 100 None None σ0 = Ok σ1 /\
     position σ1 self = Some (20, 15) /\
     update pf self 200 None None σ1 = Ok σ2 /\
     position σ2 self = Some (40, 5)).
Proof.
  assert (Hgen : forall σ self e dt events screen dx dy kx ky,
     get_element σ self = Ok e ->
     float_mul_int (Vector2.x (velocity e)) dt = Ok dx ->
     float_mul_int (Vector2.y (velocity e)) dt = Ok dy ->
     displacement dx kx -> displacement dy ky ->
     c_int_range (Rect.x (rect e) + kx) -> c_int_range (Rect.y (rect e) + ky) ->
     update pf self dt events screen σ =
       Ok (store self
             (OElement (set_rect e
                (rect_at e (Rect.x (rect e) + kx) (Rect.y (rect e) + ky))))
             σ)).
  { intros σ self e dt events screen dx dy kx ky He Hx Hy Hkx Hky Hrx Hry.
    rewrite (update_Ok pf σ self e dt events screen dx dy He Hx Hy).
    rewrite (c_double_to_int_displacement pf dx kx Hkx).
    rewrite (c_double_to_int_displacement pf dy ky Hky).
    now rewrite !wrap_int_id. }
  split; [exact Hgen|]. split.
  - intros σ self e dt events screen dx dy kx ky He Hx Hy Hkx Hky Hcx Hcy Hrx Hry.
    eexists _, _. split.
    { apply (Hgen σ self e dt events screen dx dy kx ky); auto using whole_displacement. }
    split; [apply get_element_store_eq|]. simpl.
    destruct Hkx as [_ ->], Hky as [_ ->].
    rewrite !inject_Z_plus. repeat split; reflexivity.
  - split.
    { intros σ self e dt events screen a b He Hv Ha Hb Hdt Hax Hby Hrx Hry.
      destruct (float_mul_int_whole a dt Ha Hdt Hax) as (dx & Hdx & Hwx).
      destruct (float_mul_int_whole b dt Hb Hdt Hby) as (dy & Hdy & Hwy).
      apply (Hgen σ self e dt events screen dx dy); try assumption;
        try (now apply whole_displacement); now rewrite Hv. }
    eexists _, _, _, _, _.
    split; [run_lhs; reflexivity|].
    split; [run_lhs; reflexivity|].
    split; [reflexivity|]. split; [reflexivity|].
    split; [run_lhs; reflexivity|].
    split; [run_lhs; reflexivity|].
    split; [run_lhs; reflexivity|].
    run_lhs; reflexivity.
Qed.

Lemma update_translates_truncated_witness :
  get_element slow_world 2 = Ok slow_element /\
  displacement (float_mul f_0_5 (float_of_Z 2)) 1 /\
  displacement (float_mul (S754_zero false) (float_of_Z 2)) 0 /\
  update x86_64 2 2 None None slow_world =
    Ok (store 2
          (OElement (set_rect slow_element (rect_at slow_element (0 + 1) (0 + 0))))
          slow_world).
Proof.
  assert (H1 : displacement (float_mul f_0_5 (float_of_Z 2)) 1).
  { split; [reflexivity|]. split; [apply rounds_toward_zero_iff; reflexivity|].
    unfold c_int_range, INT_MIN, INT_MAX. lia. }
  assert (H0 : displacement (float_mul (S754_zero false) (float_of_Z 2)) 0).
  { split; [reflexivity|]. split; [apply rounds_toward_zero_iff; reflexivity|].
    unfold c_int_range, INT_MIN, INT_MAX. lia. }
  split; [reflexivity|]. split; [exact H1|]. split; [exact H0|].
  apply (proj1 (update_translates_truncated x86_64) slow_world 2%positive
           slow_element 2 None None
           (float_mul f_0_5 (float_of_Z 2))
           (float_mul (S754_zero false) (float_of_Z 2)) 1 0);
    try reflexivity; try assumption;
    unfold c_int_range, INT_MIN, INT_MAX; simpl; lia.
Defined.

(** C3 as stated fails, two calls do not add up to one: at half a pixel
    per millisecond,
    [update(1)] twice moves nothing, while [0.5 * (1 + 1)] is one
    pixel. *)
Lemma update_composes_linearly_counterexample :
  update x86_64 2 1 None None slow_world = Ok slow_world /\
  float_mul_int (Vector2.x (velocity slow_element)) (1 + 1) = Ok (float_of_Z 1) /\
  ~ update_composes_linearly x86_64.
Proof.
  assert (Hupd : update x86_64 2 1 None None slow_world = Ok slow_world)
    by (vm_compute; reflexivity).
  split; [exact Hupd|]. split; [reflexivity|].
  intros Hclaim.
  destruct (Hclaim slow_world 2%positive slow_element 1 1 slow_world slow_world
              slow_element (float_of_Z 1) (S754_zero false)
              eq_refl Hupd Hupd eq_refl eq_refl eq_refl) as [Hx _].
  vm_compute in Hx. discriminate Hx.
Qed.

(** C3 (amended).  After [update(dt1)] then [update(dt2)] the position is
    the initial position plus, on each axis, the sum of the two products
    of the velocity with [dt1] and with [dt2], each rounded toward zero
    on its own; when the four products are whole numbers, that is the
    initial position plus [(vx*dt1 + vx*dt2, vy*dt1 + vy*dt2)]; and for a
    velocity in whole pixels per millisecond it is the initial position
    plus [(vx*(dt1+dt2), vy*(dt1+dt2))].  (The products are finite, and
    the integers and the final coordinates are C ints.) *)
Theorem update_twice_adds_truncations pf :
  (forall σ self e dt1 dt2 ev1 sc1 ev2 sc2 dx1 dy1 dx2 dy2 kx1 ky1 kx2 ky2,
     get_element σ self = Ok e ->
     float_mul_int (Vector2.x (velocity e)) dt1 = Ok dx1 ->
     float_mul_int (Vector2.y (velocity e)) dt1 = Ok dy1 ->
     float_mul_int (Vector2.x (velocity e)) dt2 = Ok dx2 ->
     float_mul_int (Vector2.y (velocity e)) dt2 = Ok dy2 ->
     displacement dx1 kx1 -> displacement dy1 ky1 ->
     displacement dx2 kx2 -> displacement dy2 ky2 ->
     c_int_range (Rect.x (rect e) + (kx1 + kx2)) ->
     c_int_range (Rect.y (rect e) + (ky1 + ky2)) ->
     exists σ1,
       update pf self dt1 ev1 sc1 σ = Ok σ1 /\
       update pf self dt2 ev2 sc2 σ1 =
         Ok (store self
               (OElement (set_rect e
                  (rect_at e (Rect.x (rect e) + (kx1 + kx2))
                             (Rect.y (rect e) + (ky1 + ky2)))))
               σ)) /\
  (forall σ self e dt1 dt2 ev1 sc1 ev2 sc2 dx1 dy1 dx2 dy2 kx1 ky1 kx2 ky2,
     get_element σ self = Ok e ->
     float_mul_int (Vector2.x (velocity e)) dt1 = Ok dx1 ->
     float_mul_int (Vector2.y (velocity e)) dt1 = Ok dy1 ->
     float_mul_int (Vector2.x (velocity e)) dt2 = Ok dx2 ->
     float_mul_int (Vector2.y (velocity e)) dt2 = Ok dy2 ->
     whole dx1 kx1 -> whole dy1 ky1 -> whole dx2 kx2 -> whole dy2 ky2 ->
     c_int_range kx1 -> c_int_range ky1 -> c_int_range kx2 -> c_int_range ky2 ->
     c_int_range (Rect.x (rect e) + (kx1 + kx2)) ->
     c_int_range (Rect.y (rect e) + (ky1 + ky2)) ->
     exists σ1 σ2 e2,
       update pf self dt1 ev1 sc1 σ = Ok σ1 /\
       update pf self dt2 ev2 sc2 σ1 = Ok σ2 /\
       get_element σ2 self = Ok e2 /\
       (inject_Z (Rect.x (rect e2))
          == inject_Z (Rect.x (rect e)) + (SF2Q dx1 + SF2Q dx2))%Q /\
       (inject_Z (Rect.y (rect e2))
          == inject_Z (Rect.y (rect e)) + (SF2Q dy1 + SF2Q dy2))%Q) /\
  (forall σ self e dt1 dt2 ev1 sc1 ev2 sc2 a b,
     get_element σ self = Ok e ->
     velocity e = Vector2.make (float_of_Z a) (float_of_Z b) ->
     Z.abs a < 2 ^ 53 -> Z.abs b < 2 ^ 53 ->
     Z.abs dt1 < 2 ^ 53 -> Z.abs dt2 < 2 ^ 53 ->
     c_int_range (a * dt1) -> c_int_range (b * dt1) ->
     c_int_range (a * dt2) -> c_int_range (b * dt2) ->
     c_int_range (Rect.x (rect e) + a * (dt1 + dt2)) ->
     c_int_range (Rect.y (rect e) + b * (dt1 + dt2)) ->
     exists σ1,
       update pf self dt1 ev1 sc1 σ = Ok σ1 /\
       update pf self dt2 ev2 sc2 σ1 =
         Ok (store self
               (OElement (set_rect e
                  (rect_at e (Rect.x (rect e) + a * (dt1 + dt2))
                             (Rect.y (rect e) + b * (dt1 + dt2)))))
               σ)).
Proof.
  assert (Hgen : forall σ self e dt1 dt2 ev1 sc1 ev2 sc2 dx1 dy1 dx2 dy2
                        kx1 ky1 kx2 ky2,
     get_element σ self = Ok e ->
     float_mul_int (Vector2.x (velocity e)) dt1 = Ok dx1 ->
     float_mul_int (Vector2.y (velocity e)) dt1 = Ok dy1 ->
     float_mul_int (Vector2.x (velocity e)) dt2 = Ok dx2 ->
     float_mul_int (Vector2.y (velocity e)) dt2 = Ok dy2 ->
     displacement dx1 kx1 -> displacement dy1 ky1 ->
     displacement dx2 kx2 -> displacement dy2 ky2 ->
     c_int_range (Rect.x (rect e) + (kx1 + kx2)) ->
     c_int_range (Rect.y (rect e) + (ky1 + ky2)) ->
     exists σ1,
       update pf self dt1 ev1 sc1 σ = Ok σ1 /\
       update pf self dt2 ev2 sc2 σ1 =
         Ok (store self
               (OElement (set_rect e
                  (rect_at e (Rect.x (rect e) + (kx1 + kx2))
                             (Rect.y (rect e) + (ky1 + ky2)))))
               σ)).
  { intros σ self e dt1 dt2 ev1 sc1 ev2 sc2 dx1 dy1 dx2 dy2 kx1 ky1 kx2 ky2
           He Hx1 Hy1 Hx2 Hy2 Hkx1 Hky1 Hkx2 Hky2 Hrx Hry.
    eexists. split.
    { apply (update_Ok pf σ self e dt1 ev1 sc1 dx1 dy1 He Hx1 Hy1). }
    erewrite update_Ok; [| apply get_element_store_eq | exact Hx2 | exact Hy2].
    rewrite store_store. simpl.
    rewrite (c_double_to_int_displacement pf dx1 kx1 Hkx1).
    rewrite (c_double_to_int_displacement pf dy1 ky1 Hky1).
    rewrite (c_double_to_int_displacement pf dx2 kx2 Hkx2).
    rewrite (c_double_to_int_displacement pf dy2 ky2 Hky2).
    rewrite !wrap_int_add_l, <- !Z.add_assoc.
    rewrite (wrap_int_id _ Hrx), (wrap_int_id _ Hry). reflexivity. }
  split; [exact Hgen|]. split.
  - intros σ self e dt1 dt2 ev1 sc1 ev2 sc2 dx1 dy1 dx2 dy2 kx1 ky1 kx2 ky2
           He Hx1 Hy1 Hx2 Hy2 Hkx1 Hky1 Hkx2 Hky2 Hc1 Hc2 Hc3 Hc4 Hrx Hry.
    destruct (Hgen σ self e dt1 dt2 ev1 sc1 ev2 sc2 dx1 dy1 dx2 dy2 kx1 ky1 kx2 ky2)
      as (σ1 & Hu1 & Hu2); auto using whole_displacement.
    exists σ1. eexists _, _. split; [exact Hu1|]. split; [exact Hu2|].
    split; [apply get_element_store_eq|]. simpl.
    destruct Hkx1 as [_ ->], Hky1 as [_ ->], Hkx2 as [_ ->], Hky2 as [_ ->].
    rewrite !inject_Z_plus. split; reflexivity.
  - intros σ self e dt1 dt2 ev1 sc1 ev2 sc2 a b He Hv Ha Hb Hdt1 Hdt2
           Hax1 Hby1 Hax2 Hby2 Hrx Hry.
    destruct (float_mul_int_whole a dt1 Ha Hdt1 Hax1) as (dx1 & Hdx1 & Hwx1).
    destruct (float_mul_int_whole b dt1 Hb Hdt1 Hby1) as (dy1 & Hdy1 & Hwy1).
    destruct (float_mul_int_whole a dt2 Ha Hdt2 Hax2) as (dx2 & Hdx2 & Hwx2).
    destruct (float_mul_int_whole b dt2 Hb Hdt2 Hby2) as (dy2 & Hdy2 & Hwy2).
    rewrite !Z.mul_add_distr_l in *.
    apply (Hgen σ self e dt1 dt2 ev1 sc1 ev2 sc2 dx1 dy1 dx2 dy2);
      try assumption; try (now apply whole_displacement); now rewrite Hv.
Qed.

Lemma update_twice_adds_truncations_witness :
  get_element slow_world 2 = Ok slow_element /\
  displacement (float_mul f_0_5 (float_of_Z 1)) 0 /\
  displacement (float_mul f_0_5 (float_of_Z 3)) 1 /\
  displacement (float_mul (S754_zero false) (float_of_Z 1)) 0 /\
  exists σ1,
    update x86_64 2 1 None None slow_world = Ok σ1 /\
    update x86_64 2 3 None None σ1 =
      Ok (store 2
            (OElement (set_rect slow_element
               (rect_at slow_element (0 + (0 + 1)) (0 + (0 + 0)))))
            slow_world).
Proof.
  assert (Hr : forall k, -1 <= k <= 1 -> c_int_range k).
  { unfold c_int_range, INT_MIN, INT_MAX. lia. }
  assert (H1 : displacement (float_mul f_0_5 (float_of_Z 1)) 0).
  { split; [reflexivity|]. split; [apply rounds_toward_zero_iff; reflexivity|].
    apply Hr. lia. }
  assert (H3 : displacement (float_mul f_0_5 (float_of_Z 3)) 1).
  { split; [reflexivity|]. split; [apply rounds_toward_zero_iff; reflexivity|].
    apply Hr. lia. }
  assert (H0 : displacement (float_mul (S754_zero false) (float_of_Z 1)) 0).
  { split; [reflexivity|]. split; [apply rounds_toward_zero_iff; reflexivity|].
    apply Hr. lia. }
  split; [reflexivity|]. split; [exact H1|]. split; [exact H3|].
  split; [exact H0|].
  apply (proj1 (update_twice_adds_truncations x86_64) slow_world 2%positive
           slow_element 1 3 None None None None
           (float_mul f_0_5 (float_of_Z 1))
           (float_mul (S754_zero false) (float_of_Z 1))
           (float_mul f_0_5 (float_of_Z 3))
           (float_mul (S754_zero false) (float_of_Z 3)) 0 0 1 0);
    try reflexivity; try assumption; try (apply Hr; simpl; lia).
Defined.

(** ** Construction *)

Lemma string_app_cons a s t : String a s +:+ t = String a (s +:+ t).
Proof. reflexivity. Qed.

Lemma string_length_app s t :
  String.length (s +:+ t) = (String.length s + String.length t)%nat.
Proof.
  induction s as [|a s IH]; [reflexivity|].
  rewrite string_app_cons. simpl. now rewrite IH.
Qed.

Lemma string_app_inv_tail s1 s2 t : s1 +:+ t = s2 +:+ t -> s1 = s2.
Proof.
  revert s2. induction s1 as [|a s1 IH]; intros [|b s2] H.
  - reflexivity.
  - apply (f_equal String.length) in H.
    rewrite !string_length_app in H. simpl in H. lia.
  - apply (f_equal String.length) in H.
    rewrite !string_length_app in H. simpl in H. lia.
  - rewrite !string_app_cons in H. injection H as -> H.
    f_equal. now apply IH.
Qed.

(** The message names the class, and no other. *)
Lemma uninitialized_message_inj c1 c2 :
  uninitialized_message c1 = uninitialized_message c2 -> c1 = c2.
Proof.
  unfold uninitialized_message. intros H.
  apply String.app_inj in H. now apply string_app_inv_tail in H.
Qed.

Lemma new_uninitialized pf class_name img x y v c σ :
  pg_initialized σ = false ->
  new pf class_name img x y v c σ
  = Raise (RuntimeError (uninitialized_message class_name)).
Proof.
  intros Hinit. unfold new, __init__. simpl pg_initialized.
  now rewrite Hinit.
Qed.

Lemma fresh_heap_None σ : heap σ !! fresh (dom (heap σ)) = None.
Proof. apply not_elem_of_dom, is_fresh. Qed.

(** The new object does not hide an object of the caller. *)
Lemma get_surface_new_self σ r :
  get_surface (store (fresh (dom (heap σ))) OBlank σ) r = get_surface σ r.
Proof.
  destruct (decide (fresh (dom (heap σ)) = r)) as [<-|Hne].
  - unfold get_surface. rewrite heap_store_eq, fresh_heap_None. reflexivity.
  - now apply get_surface_store_ne.
Qed.

Lemma Surface_get_rect_ints s x y :
  c_int_range x -> c_int_range y ->
  Surface_get_rect s x y = Ok (Rect.make x y (surf_w s) (surf_h s)).
Proof.
  intros Hx Hy. apply in_int_range_spec in Hx, Hy.
  unfold Surface_get_rect, Rect_set_topleft. now rewrite Hx, Hy.
Qed.

Lemma Surface_get_rect_inv s x y r :
  Surface_get_rect s x y = Ok r -> c_int_range x /\ c_int_range y.
Proof.
  unfold Surface_get_rect, Rect_set_topleft.
  destruct (in_int_range x) eqn:Hx, (in_int_range y) eqn:Hy; try discriminate.
  intros _. split; now apply in_int_range_spec.
Qed.

(** What a construction on valid arguments does: pygame initialised, an
    image argument that denotes an image of size [(w, h)], a position in
    C ints. *)
Lemma new_valid pf class_name img x y v c σ w h :
  pg_initialized σ = true ->
  image_size pf σ img = Some (w, h) ->
  c_int_range x -> c_int_range y ->
  exists self σ' im s,
    new pf class_name img x y v c σ = Ok (self, σ') /\
    get_element σ' self
      = Ok {| image := im; rect := Rect.make x y w h;
              velocity := v; collidable := c |} /\
    get_surface σ' im = Ok s /\ (surf_w s, surf_h s) = (w, h).
Proof.
  intros Hinit Hsize Hx Hy. unfold new, __init__. simpl pg_initialized.
  rewrite Hinit. simpl negb. cbv iota.
  destruct img as [ | | | |path|r]; try discriminate Hsize; simpl in Hsize.
  - set (self := fresh (dom (heap σ))).
    destruct (image_load pf path) as [[w0 h0]|] eqn:Hload; [|discriminate].
    injection Hsize as -> ->.
    unfold image_load_convert_alpha. rewrite Hload. simpl result_bind.
    set (r := fresh (dom (heap (store self OBlank σ)))).
    assert (Hr : self <> r).
    { intros Heq. pose proof (fresh_heap_None (store self OBlank σ)) as Hnone.
      fold r in Hnone. rewrite <- Heq, heap_store_eq in Hnone. discriminate. }
    unfold fst, snd. unfold get_surface at 1. rewrite heap_store_eq.
    simpl result_bind. rewrite (Surface_get_rect_ints _ x y Hx Hy). simpl.
    eexists _, _, _, _. split; [reflexivity|].
    split; [apply get_element_store_eq|].
    split.
    + rewrite get_surface_store_ne by exact Hr.
      apply get_surface_Ok, heap_store_eq.
    + reflexivity.
  - destruct (get_surface σ r) as [s|] eqn:Hs; [|discriminate].
    injection Hsize as <- <-.
    unfold isinstance_Surface. rewrite get_surface_new_self, Hs.
    simpl. rewrite get_surface_new_self, Hs. simpl.
    rewrite (Surface_get_rect_ints _ x y Hx Hy). simpl.
    eexists _, _, _, _. split; [reflexivity|].
    split; [apply get_element_store_eq|].
    assert (Hne : fresh (dom (heap σ)) <> r).
    { intros <-. apply get_surface_Ok in Hs.
      rewrite fresh_heap_None in Hs. discriminate. }
    split.
    + rewrite get_surface_store_ne by exact Hne.
      rewrite get_surface_new_self. exact Hs.
    + reflexivity.
Qed.

(** A construction that succeeds was one on valid arguments. *)
Lemma new_inv pf class_name img x y v c σ self σ' :
  new pf class_name img x y v c σ = Ok (self, σ') ->
  pg_initialized σ = true /\
  (exists w h, image_size pf σ img = Some (w, h)) /\
  c_int_range x /\ c_int_range y.
Proof.
  unfold new, __init__. simpl pg_initialized.
  destruct (pg_initialized σ); simpl negb; cbv iota; [|discriminate].
  intros Hnew. split; [reflexivity|].
  assert (Himg : exists w h, image_size pf σ img = Some (w, h)).
  { destruct img as [ | | | |path|r]; try discriminate Hnew; simpl.
    - unfold image_load_convert_alpha in Hnew.
      destruct (image_load pf path) as [[w h]|]; [eauto | discriminate Hnew].
    - unfold isinstance_Surface in Hnew.
      rewrite get_surface_new_self in Hnew.
      destruct (get_surface σ r) as [s|]; [eauto | discriminate Hnew]. }
  split; [exact Himg|].
  match type of Hnew with
  | context [@result_bind (ref * World) World ?ld _] =>
      destruct ld as [[im σ1]|]; [|discriminate Hnew]
  end.
  simpl in Hnew.
  destruct (get_surface σ1 im) as [s|]; [|discriminate Hnew]. simpl in Hnew.
  destruct (Surface_get_rect s x y) as [r|] eqn:Hrect; [|discriminate Hnew].
  exact (Surface_get_rect_inv s x y r Hrect).
Qed.

(** C4. Without [pygame.init()], the construction raises [RuntimeError]
    whatever the other arguments are, and the message of the error
    contains the name of the class and determines it. *)
Theorem new_uninitialized_raises pf class_name img x y v c σ :
  pg_initialized σ = false ->
  new pf class_name img x y v c σ
    = Raise (RuntimeError (uninitialized_message class_name)) /\
  (exists before after,
     uninitialized_message class_name = before +:+ class_name +:+ after) /\
  (forall other, uninitialized_message other = uninitialized_message class_name ->
                 other = class_name).
Proof.
  intros Hinit. split; [now apply new_uninitialized|]. split.
  - eexists _, _. reflexivity.
  - intros other. apply uninitialized_message_inj.
Qed.

Lemma new_uninitialized_raises_witness :
  pg_initialized uninitialized_world = false /\
  new x86_64 "Ship" (PyStr "ship.png") 10 20 scenario_velocity true
      uninitialized_world
    = Raise (RuntimeError
        "Pygame must be initialized before creating a Ship object. Please call pygame.init() before using this class.").
Proof.
  split; [reflexivity|].
  apply (new_uninitialized_raises x86_64 "Ship" (PyStr "ship.png") 10 20
           scenario_velocity true uninitialized_world).
  reflexivity.
Defined.

(** C5 as stated fails before [pygame.init()]: an int as image raises
    [RuntimeError], not [ValueError]. *)
Lemma bad_image_always_ValueError_counterexample :
  isinstance_str (PyInt 5) = false /\
  isinstance_Surface uninitialized_world (PyInt 5) = false /\
  new x86_64 "GameElement" (PyInt 5) 0 0 scenario_velocity true
      uninitialized_world
    = Raise (RuntimeError (uninitialized_message "GameElement")) /\
  ~ bad_image_always_ValueError x86_64.
Proof.
  assert (Hnew : new x86_64 "GameElement" (PyInt 5) 0 0 scenario_velocity true
                   uninitialized_world
                 = Raise (RuntimeError (uninitialized_message "GameElement")))
    by reflexivity.
  repeat split; try reflexivity.
  intros Hclaim.
  destruct (Hclaim "GameElement" (PyInt 5) 0 0 scenario_velocity true
              uninitialized_world eq_refl eq_refl) as [msg Hmsg].
  rewrite Hnew in Hmsg. discriminate Hmsg.
Qed.

(** C5 (amended).  Once pygame is initialised, an image argument that is
    neither a string nor a surface makes the construction raise
    [ValueError]. *)
Theorem new_bad_image_raises pf class_name img x y v c σ :
  pg_initialized σ = true ->
  isinstance_str img = false ->
  isinstance_Surface σ img = false ->
  new pf class_name img x y v c σ = Raise (ValueError image_message).
Proof.
  intros Hinit Hstr Hsurf. unfold new, __init__. simpl pg_initialized.
  rewrite Hinit. simpl negb. cbv iota.
  destruct img as [ | | | | |r]; try discriminate Hstr; try reflexivity.
  unfold isinstance_Surface in *. rewrite get_surface_new_self, Hsurf.
  reflexivity.
Qed.

Lemma new_bad_image_raises_witness :
  pg_initialized scenario_world = true /\
  isinstance_str (PyRef 7) = false /\
  isinstance_Surface scenario_world (PyRef 7) = false /\
  new x86_64 "GameElement" (PyRef 7) 0 0 scenario_velocity true scenario_world
    = Raise (ValueError image_message).
Proof.
  split; [reflexivity|]. split; [reflexivity|]. split; [reflexivity|].
  apply (new_bad_image_raises x86_64 "GameElement" (PyRef 7) 0 0
           scenario_velocity true scenario_world); reflexivity.
Defined.

(** C9. The initialisation of pygame is checked before the image argument
    is looked at: without it the construction raises [RuntimeError]
    whatever the image is, so a [ValueError] is only ever raised with
    pygame initialised. *)
Theorem new_checks_initialization_first pf class_name img x y v c σ :
  (pg_initialized σ = false ->
   isinstance_str img = false -> isinstance_Surface σ img = false ->
   new pf class_name img x y v c σ
     = Raise (RuntimeError (uninitialized_message class_name))) /\
  (forall msg, new pf class_name img x y v c σ = Raise (ValueError msg) ->
               pg_initialized σ = true).
Proof.
  split.
  - intros Hinit _ _. now apply new_uninitialized.
  - intros msg Hraise. destruct (pg_initialized σ) eqn:Hinit; [reflexivity|].
    rewrite (new_uninitialized pf class_name img x y v c σ Hinit) in Hraise.
    discriminate Hraise.
Qed.

Lemma new_checks_initialization_first_witness :
  (pg_initialized uninitialized_world = false /\
   isinstance_str PyNone = false /\
   isinstance_Surface uninitialized_world PyNone = false /\
   new x86_64 "GameElement" PyNone 0 0 scenario_velocity true uninitialized_world
     = Raise (RuntimeError (uninitialized_message "GameElement"))) /\
  (new x86_64 "GameElement" PyNone 0 0 scenario_velocity true scenario_world
     = Raise (ValueError image_message) /\
   pg_initialized scenario_world = true).
Proof.
  split.
  - split; [reflexivity|]. split; [reflexivity|]. split; [reflexivity|].
    apply (proj1 (new_checks_initialization_first x86_64 "GameElement" PyNone
                    0 0 scenario_velocity true uninitialized_world));
      reflexivity.
  - split; [reflexivity|].
    apply (proj2 (new_checks_initialization_first x86_64 "GameElement" PyNone
                    0 0 scenario_velocity true scenario_world) image_message).
    reflexivity.
Defined.

(** C2. A construction with pygame initialised, an image argument that
    denotes an image of size [(w, h)] (the path of a readable file, or a
    surface) and a position [(x, y)] in C ints succeeds, and the new
    element has [rect.topleft == (x, y)], [rect.size == (w, h)], the size
    of its image, and the velocity and the flag it was given. *)
Theorem new_rect pf class_name img x y v c σ w h :
  pg_initialized σ = true ->
  image_size pf σ img = Some (w, h) ->
  c_int_range x -> c_int_range y ->
  exists self σ' e s,
    new pf class_name img x y v c σ = Ok (self, σ') /\
    get_element σ' self = Ok e /\
    get_surface σ' (image e) = Ok s /\
    Rect.topleft (rect e) = (x, y) /\
    Rect.size (rect e) = (surf_w s, surf_h s) /\
    (surf_w s, surf_h s) = (w, h) /\
    velocity e = v /\ collidable e = c.
Proof.
  intros Hinit Hsize Hx Hy.
  destruct (new_valid pf class_name img x y v c σ w h Hinit Hsize Hx Hy)
    as (self & σ' & im & s & Hnew & He & Hs & Hwh).
  eexists self, σ', _, s. split; [exact Hnew|]. split; [exact He|].
  simpl. split; [exact Hs|]. split; [reflexivity|].
  split; [now rewrite Hwh|]. split; [exact Hwh|]. split; reflexivity.
Qed.

Lemma new_rect_witness :
  pg_initialized scenario_world = true /\
  image_size x86_64 scenario_world (PyStr "ship.png") = Some (32, 16) /\
  c_int_range 10 /\ c_int_range 20 /\
  exists self σ' e s,
    new x86_64 "GameElement" (PyStr "ship.png") 10 20 scenario_velocity true
        scenario_world = Ok (self, σ') /\
    get_element σ' self = Ok e /\
    get_surface σ' (image e) = Ok s /\
    Rect.topleft (rect e) = (10, 20) /\
    Rect.size (rect e) = (surf_w s, surf_h s) /\
    (surf_w s, surf_h s) = (32, 16) /\
    velocity e = scenario_velocity /\ collidable e = true.
Proof.
  assert (Hr : forall k, 0 <= k <= 100 -> c_int_range k).
  { unfold c_int_range, INT_MIN, INT_MAX. lia. }
  split; [reflexivity|]. split; [reflexivity|].
  split; [apply Hr; lia|]. split; [apply Hr; lia|].
  apply (new_rect x86_64 "GameElement" (PyStr "ship.png") 10 20
           scenario_velocity true scenario_world 32 16);
    try reflexivity; apply Hr; lia.
Defined.

(** ** [collided_with] and [draw] *)

(** C7. [collided_with] of the base class leaves the store as it is:
    the [rect], [velocity] and [collidable] of both participants (the
    same object or not) are what they were. *)
Theorem collided_with_mutates_nothing self other_element σ :
  exists σ',
    collided_with self other_element σ = Ok σ' /\
    σ' = σ /\
    get_element σ' self = get_element σ self /\
    get_element σ' other_element = get_element σ other_element.
Proof. exists σ. repeat split. Qed.

(** A call of [draw] that returns has blitted on [screen]. *)
Lemma draw_inv self screen σ σ' :
  draw self screen σ = Ok σ' ->
  exists e scr src,
    get_element σ self = Ok e /\
    get_surface σ screen = Ok scr /\
    get_surface σ (image e) = Ok src /\
    σ' = store screen
           (OSurface {| surf_w := surf_w scr; surf_h := surf_h scr;
                        surf_paint := Blitted (surf_paint scr) (surf_paint src)
                                        (Rect.topleft (rect e)) |})
           σ.
Proof.
  unfold draw, Surface_blit.
  destruct (get_blit σ screen) as [[]|]; [|discriminate]. simpl.
  destruct (get_element σ self) as [e|] eqn:He; [|discriminate]. simpl.
  destruct (get_surface σ screen) as [scr|] eqn:Hscr; [|discriminate]. simpl.
  destruct (get_surface σ (image e)) as [src|] eqn:Hsrc; [|discriminate]. simpl.
  intros [= <-]. now exists e, scr, src.
Qed.

Lemma get_blit_surface σ r s : get_surface σ r = Ok s -> get_blit σ r = Ok tt.
Proof.
  intros Hs. apply get_surface_Ok in Hs. unfold get_blit. now rewrite Hs.
Qed.

(** C8. [draw(screen)] composites the image of the element onto
    [screen] at the top-left corner of [rect], and that is all it does:
    the element keeps its [rect], [velocity], [image] and [collidable],
    and every object other than [screen] is what it was. *)
Theorem draw_blits_only self screen σ e scr src :
  get_element σ self = Ok e ->
  get_surface σ screen = Ok scr ->
  get_surface σ (image e) = Ok src ->
  exists σ',
    draw self screen σ = Ok σ' /\
    get_element σ' self = Ok e /\
    get_surface σ' screen
      = Ok {| surf_w := surf_w scr; surf_h := surf_h scr;
              surf_paint := Blitted (surf_paint scr) (surf_paint src)
                              (Rect.topleft (rect e)) |} /\
    (forall r, r <> screen -> heap σ' !! r = heap σ !! r) /\
    pg_initialized σ' = pg_initialized σ.
Proof.
  intros He Hscr Hsrc. eexists. split.
  { unfold draw, Surface_blit.
    rewrite (get_blit_surface σ screen scr Hscr), He, Hscr. simpl.
    rewrite Hsrc. reflexivity. }
  split.
  { rewrite get_element_store_ne; [exact He|].
    apply (surface_not_element σ screen self scr e Hscr He). }
  split; [apply get_surface_Ok, heap_store_eq|].
  split; [|reflexivity].
  intros r Hr. apply heap_store_ne. congruence.
Qed.

Lemma draw_blits_only_witness :
  get_element slow_world 2 = Ok slow_element /\
  (exists scr, get_surface slow_world 1 = Ok scr) /\
  exists σ',
    draw 2 1 slow_world = Ok σ' /\
    get_element σ' 2 = Ok slow_element /\
    get_surface σ' 1
      = Ok {| surf_w := 32; surf_h := 16;
              surf_paint := Blitted (Pixels "sprite") (Pixels "sprite") (0, 0) |}.
Proof.
  split; [reflexivity|]. split; [eexists; reflexivity|].
  destruct (draw_blits_only 2 1 slow_world slow_element
              {| surf_w := 32; surf_h := 16; surf_paint := Pixels "sprite" |}
              {| surf_w := 32; surf_h := 16; surf_paint := Pixels "sprite" |}
              eq_refl eq_refl eq_refl)
    as (σ' & Hdraw & He & Hscr & _).
  exists σ'. split; [exact Hdraw|]. split; [exact He|]. exact Hscr.
Defined.

(** ** The size of [rect] over the life of an element *)

Lemma update_inv pf self dt events screen σ σ' :
  update pf self dt events screen σ = Ok σ' ->
  exists e x' y',
    get_element σ self = Ok e /\
    σ' = store self (OElement (set_rect e (rect_at e x' y'))) σ.
Proof.
  unfold update.
  destruct (get_element σ self) as [e|] eqn:He; [|discriminate]. simpl.
  destruct (float_mul_int (Vector2.x (velocity e)) dt) as [dx|]; [|discriminate].
  destruct (float_mul_int (Vector2.y (velocity e)) dt) as [dy|]; [|discriminate].
  simpl. intros [= <-]. now eexists e, _, _.
Qed.

Lemma run_call_keeps_image_size pf c σ σ' self im w h :
  keeps_image_size σ self im w h ->
  run_call pf c σ = Ok σ' ->
  keeps_image_size σ' self im w h.
Proof.
  intros (e & s & He & Him & Hs & Hwh & Hsize) Hrun.
  destruct c as [self' dt events screen | self' other | self' screen]; simpl in Hrun.
  - apply update_inv in Hrun as (e1 & x' & y' & He1 & ->).
    assert (Hne : self' <> im).
    { intros ->. apply (surface_not_element σ im im s e1 Hs He1). reflexivity. }
    destruct (decide (self' = self)) as [->|Hself].
    + rewrite He in He1. injection He1 as <-.
      exists (set_rect e (rect_at e x' y')), s.
      split; [apply get_element_store_eq|]. split; [exact Him|].
      split; [now rewrite get_surface_store_ne|]. split; [exact Hwh|].
      exact Hsize.
    + exists e, s. split; [now rewrite get_element_store_ne|].
      split; [exact Him|]. split; [now rewrite get_surface_store_ne|].
      split; [exact Hwh | exact Hsize].
  - injection Hrun as <-. now exists e, s.
  - apply draw_inv in Hrun as (e1 & scr & src & He1 & Hscr & Hsrc & ->).
    assert (Hne : screen <> self)
      by apply (surface_not_element σ screen self scr e Hscr He).
    destruct (decide (screen = im)) as [->|Him'].
    + rewrite Hs in Hscr. injection Hscr as <-.
      eexists e, _. split; [now rewrite get_element_store_ne|].
      split; [exact Him|].
      split; [apply get_surface_Ok, heap_store_eq|].
      split; [exact Hwh | exact Hsize].
    + exists e, s. split; [now rewrite get_element_store_ne|].
      split; [exact Him|]. split; [now rewrite get_surface_store_ne|].
      split; [exact Hwh | exact Hsize].
Qed.

Lemma run_calls_keeps_image_size pf cs σ self im w h :
  keeps_image_size σ self im w h ->
  keeps_image_size (run_calls pf cs σ) self im w h.
Proof.
  revert σ. induction cs as [|c cs IH]; intros σ Hkeeps; simpl.
  - exact Hkeeps.
  - destruct (run_call pf c σ) as [σ'|ex] eqn:Hrun.
    + apply IH. exact (run_call_keeps_image_size pf c σ σ' self im w h Hkeeps Hrun).
    + apply IH. exact Hkeeps.
Qed.

(** C6. After a construction, whatever calls of [update],
    [collided_with] and [draw] are made (on this element or on others,
    returning or raising), the width and height of [rect] are those of
    the image the element was constructed with, which the image keeps. *)
Theorem rect_size_invariant pf class_name img x y v c σ self σ0 :
  new pf class_name img x y v c σ = Ok (self, σ0) ->
  exists im w h,
    image_size pf σ img = Some (w, h) /\
    forall calls, exists e s,
      get_element (run_calls pf calls σ0) self = Ok e /\
      image e = im /\
      get_surface (run_calls pf calls σ0) im = Ok s /\
      (surf_w s, surf_h s) = (w, h) /\
      Rect.size (rect e) = (w, h).
Proof.
  intros Hnew.
  destruct (new_inv pf class_name img x y v c σ self σ0 Hnew)
    as (Hinit & (w & h & Hsize) & Hx & Hy).
  destruct (new_valid pf class_name img x y v c σ w h Hinit Hsize Hx Hy)
    as (self' & σ' & im & s & Hnew' & He & Hs & Hwh).
  rewrite Hnew in Hnew'. injection Hnew' as <- <-.
  exists im, w, h. split; [exact Hsize|].
  intros calls. apply run_calls_keeps_image_size.
  eexists _, s. split; [exact He|]. repeat split; assumption.
Qed.

Lemma rect_size_invariant_witness :
  exists self σ0,
    new x86_64 "GameElement" (PyStr "ship.png") 10 20 scenario_velocity true
        scenario_world = Ok (self, σ0) /\
    exists e,
      get_element
        (run_calls x86_64
           [CallUpdate self 100 None None; CallDraw self 1;
            CallCollidedWith self self; CallUpdate self (10 ^ 400) None None;
            CallUpdate self 200 None (Some 1%positive)] σ0) self = Ok e /\
      Rect.size (rect e) = (32, 16) /\ Rect.topleft (rect e) = (40, 5).
Proof.
  eexists _, _. split; [run_lhs; reflexivity|].
  match goal with
  | |- exists e, get_element (run_calls _ ?cs ?w) ?self = _ /\ _ =>
      destruct (rect_size_invariant x86_64 "GameElement" (PyStr "ship.png")
                  10 20 scenario_velocity true scenario_world self w)
        as (im & w' & h' & Hsize & Hcalls);
      [vm_compute; reflexivity|];
      destruct (Hcalls cs) as (e & s & He & _ & _ & _ & Hrect)
  end.
  injection Hsize as <- <-.
  exists e. split; [exact He|]. split; [exact Hrect|].
  vm_compute in He. injection He as <-. reflexivity.
Defined.

(** * Further properties of the class *)

(** ** Helpers *)

Lemma store_id σ self e : get_element σ self = Ok e -> store self (OElement e) σ = σ.
Proof.
  intros He. apply get_element_Ok in He. destruct σ as [init hp].
  unfold store. simpl in *. f_equal. now apply insert_id.
Qed.

Lemma set_rect_same e :
  set_rect e (rect_at e (Rect.x (rect e)) (Rect.y (rect e))) = e.
Proof. destruct e as [im [x y w h] v c]. reflexivity. Qed.

Lemma heap_store_frame r o σ r' : r' <> r -> heap (store r o σ) !! r' = heap σ !! r'.
Proof. intros Hne. apply heap_store_ne. congruence. Qed.

Lemma c_double_to_int_zero pf s : c_double_to_int pf (S754_zero s) = 0.
Proof. reflexivity. Qed.

(** A finite double times a zero is a zero. *)
Lemma float_mul_zero_r f s :
  SF_finite f = true -> exists s', float_mul f (S754_zero s) = S754_zero s'.
Proof. destruct f; simpl; try discriminate; eauto. Qed.

Lemma float_mul_zero_l s g :
  SF_finite g = true -> exists s', float_mul (S754_zero s) g = S754_zero s'.
Proof. destruct g; simpl; try discriminate; eauto. Qed.

(** What [update] does once [dt] has been converted. *)
Lemma update_converted pf σ self e dt events screen fdt :
  get_element σ self = Ok e ->
  py_float_of_int dt = Ok fdt ->
  update pf self dt events screen σ =
  Ok (store self
        (OElement (set_rect e
           (rect_at e
              (wrap_int (Rect.x (rect e)
                         + c_double_to_int pf (float_mul (Vector2.x (velocity e)) fdt)))
              (wrap_int (Rect.y (rect e)
                         + c_double_to_int pf (float_mul (Vector2.y (velocity e)) fdt))))))
        σ).
Proof.
  intros He Hdt. apply update_Ok; [exact He| |]; unfold float_mul_int;
    now rewrite Hdt.
Qed.

(** ** [update]: the edge [dt = 0] *)

(** X1. With a finite velocity, [update(0)] changes nothing at all: the
    store after the call is the store before it. *)
Theorem update_zero_dt pf σ self e events screen :
  get_element σ self = Ok e ->
  SF_finite (Vector2.x (velocity e)) = true ->
  SF_finite (Vector2.y (velocity e)) = true ->
  c_int_range (Rect.x (rect e)) -> c_int_range (Rect.y (rect e)) ->
  update pf self 0 events screen σ = Ok σ.
Proof.
  intros He Hvx Hvy Hx Hy.
  rewrite (update_converted pf σ self e 0 events screen (S754_zero false) He eq_refl).
  destruct (float_mul_zero_r _ false Hvx) as [sx ->].
  destruct (float_mul_zero_r _ false Hvy) as [sy ->].
  rewrite !c_double_to_int_zero, !Z.add_0_r, !wrap_int_id by assumption.
  rewrite set_rect_same. f_equal. now apply store_id.
Qed.

Lemma update_zero_dt_witness :
  get_element slow_world 2 = Ok slow_element /\
  update x86_64 2 0 None None slow_world = Ok slow_world.
Proof.
  split; [reflexivity|].
  apply (update_zero_dt x86_64 slow_world 2%positive slow_element None None);
    try reflexivity; unfold c_int_range, INT_MIN, INT_MAX; simpl; lia.
Defined.

(** ** [update]: what it leaves alone *)

(** X2. A call of [update] that returns has changed nothing but the
    position of [self]: the image, the velocity, the flag and the size of
    [self] are what they were, and so is every other object and the
    state of pygame. *)
Theorem update_frame pf self dt events screen σ σ' :
  update pf self dt events screen σ = Ok σ' ->
  exists e e',
    get_element σ self = Ok e /\ get_element σ' self = Ok e' /\
    image e' = image e /\ velocity e' = velocity e /\
    collidable e' = collidable e /\
    Rect.size (rect e') = Rect.size (rect e) /\
    (forall r, r <> self -> heap σ' !! r = heap σ !! r) /\
    pg_initialized σ' = pg_initialized σ.
Proof.
  intros Hupd. apply update_inv in Hupd as (e & x' & y' & He & ->).
  exists e, (set_rect e (rect_at e x' y')).
  split; [exact He|]. split; [apply get_element_store_eq|].
  repeat split. intros r Hr. now apply heap_store_frame.
Qed.

Lemma update_frame_witness :
  exists σ' e',
    update x86_64 2 7 None None slow_world = Ok σ' /\
    get_element σ' 2 = Ok e' /\
    velocity e' = velocity slow_element /\
    collidable e' = true /\
    heap σ' !! 1%positive = heap slow_world !! 1%positive.
Proof.
  eexists _, _. split; [run_lhs; reflexivity|].
  match goal with
  | |- get_element ?w _ = _ /\ _ =>
      destruct (update_frame x86_64 2%positive 7 None None slow_world w)
        as (e & e' & He & He' & _ & Hv & Hc & _ & Hframe & _);
      [vm_compute; reflexivity|]
  end.
  vm_compute in He. injection He as <-.
  assert (He2 := He'). vm_compute in He2. injection He2 as <-.
  split; [exact He'|]. split; [exact Hv|]. split; [exact Hc|].
  apply Hframe. discriminate.
Defined.

(** ** [update]: when it returns *)

Lemma Rect_move_ip_floats pf r dx dy :
  Rect_move_ip pf r (PyFloat dx) (PyFloat dy)
  = Ok (Rect.make (wrap_int (Rect.x r + c_double_to_int pf dx))
                  (wrap_int (Rect.y r + c_double_to_int pf dy))
                  (Rect.w r) (Rect.h r)).
Proof. reflexivity. Qed.

(** On an element, [update] raises only when [dt] does not convert. *)
Lemma update_Raise_inv pf σ self e dt events screen ex :
  get_element σ self = Ok e ->
  update pf self dt events screen σ = Raise ex ->
  py_float_of_int dt = Raise ex.
Proof.
  intros He. unfold update, float_mul_int. rewrite He. simpl.
  destruct (py_float_of_int dt) as [fdt|ex']; simpl; [discriminate|].
  intros [= ->]. reflexivity.
Qed.

Lemma py_float_of_int_Raise n ex :
  py_float_of_int n = Raise ex ->
  ex = OverflowError "int too large to convert to float".
Proof.
  unfold py_float_of_int. destruct (float_of_Z n); intros [= <-]; reflexivity.
Qed.

(** X3. On an element, [update(dt)] returns for every [dt] below 2^53 in
    magnitude, whatever the velocity is (infinite or NaN included); the
    only exception it ever raises is the [OverflowError] of the
    conversion of [dt] to a float, and then [dt] is at least 2^53 in
    magnitude. *)
Theorem update_returns pf σ self e dt events screen :
  get_element σ self = Ok e ->
  (Z.abs dt < 2 ^ 53 -> exists σ', update pf self dt events screen σ = Ok σ') /\
  (forall ex, update pf self dt events screen σ = Raise ex ->
     ex = OverflowError "int too large to convert to float" /\
     2 ^ 53 <= Z.abs dt).
Proof.
  intros He. split.
  - intros Hdt. destruct (py_float_of_int_exact dt Hdt) as [Hconv _].
    eexists. exact (update_converted pf σ self e dt events screen _ He Hconv).
  - intros ex Hraise.
    pose proof (update_Raise_inv pf σ self e dt events screen ex He Hraise) as Hconv.
    split; [exact (py_float_of_int_Raise dt ex Hconv)|].
    destruct (Z.le_gt_cases (2 ^ 53) (Z.abs dt)) as [|Hlt]; [assumption|].
    destruct (py_float_of_int_exact dt Hlt) as [Hok _]. congruence.
Qed.

Lemma update_returns_witness :
  get_element slow_world 2 = Ok slow_element /\
  (exists σ', update x86_64 2 (2 ^ 40) None None slow_world = Ok σ') /\
  update x86_64 2 (2 ^ 1024) None None slow_world
    = Raise (OverflowError "int too large to convert to float").
Proof.
  split; [reflexivity|]. split.
  - apply (proj1 (update_returns x86_64 slow_world 2%positive slow_element
                    (2 ^ 40) None None eq_refl)).
    simpl. lia.
  - destruct (update x86_64 2 (2 ^ 1024) None None slow_world) as [σ'|ex] eqn:Hupd.
    + vm_compute in Hupd. discriminate Hupd.
    + destruct (proj2 (update_returns x86_64 slow_world 2%positive slow_element
                         (2 ^ 1024) None None eq_refl) ex Hupd) as [-> _].
      reflexivity.
Defined.

(** ** [update]: the threshold of a move *)

Lemma rounds_toward_zero_0 q : rounds_toward_zero q 0 <-> (Qabs q < 1)%Q.
Proof.
  split.
  - intros (_ & Hlt & _). exact Hlt.
  - intros Hlt. apply rounds_toward_zero_iff. symmetry. now apply Qtruncate_small.
Qed.

(** X10. An axis moves exactly when the product of the velocity and [dt]
    reaches one pixel in magnitude: the x coordinate after [update(dt)]
    is the one before if and only if [|velocity.x * dt| < 1] (for a
    finite product whose integral part and the new coordinate are C
    ints), and likewise for y. *)
Theorem update_moves_iff pf σ self e dt events screen dx dy kx ky σ' e' :
  get_element σ self = Ok e ->
  float_mul_int (Vector2.x (velocity e)) dt = Ok dx ->
  float_mul_int (Vector2.y (velocity e)) dt = Ok dy ->
  displacement dx kx -> displacement dy ky ->
  c_int_range (Rect.x (rect e) + kx) -> c_int_range (Rect.y (rect e) + ky) ->
  update pf self dt events screen σ = Ok σ' ->
  get_element σ' self = Ok e' ->
  (Rect.x (rect e') = Rect.x (rect e) <-> (Qabs (SF2Q dx) < 1)%Q) /\
  (Rect.y (rect e') = Rect.y (rect e) <-> (Qabs (SF2Q dy) < 1)%Q).
Proof.
  intros He Hdx Hdy Hkx Hky Hrx Hry Hupd He'.
  rewrite (update_Ok pf σ self e dt events screen dx dy He Hdx Hdy) in Hupd.
  injection Hupd as <-. rewrite get_element_store_eq in He'. injection He' as <-.
  simpl.
  rewrite (c_double_to_int_displacement pf dx kx Hkx).
  rewrite (c_double_to_int_displacement pf dy ky Hky).
  rewrite !wrap_int_id by assumption.
  destruct Hkx as (_ & Hkx & _), Hky as (_ & Hky & _).
  split.
  - rewrite <- rounds_toward_zero_0. split.
    + intros Heq. assert (kx = 0) as <- by lia. exact Hkx.
    + intros H0. apply rounds_toward_zero_iff in H0, Hkx. lia.
  - rewrite <- rounds_toward_zero_0. split.
    + intros Heq. assert (ky = 0) as <- by lia. exact Hky.
    + intros H0. apply rounds_toward_zero_iff in H0, Hky. lia.
Qed.

Lemma update_moves_iff_witness :
  get_element slow_world 2 = Ok slow_element /\
  displacement (float_mul f_0_5 (float_of_Z 2)) 1 /\
  displacement (float_mul (S754_zero false) (float_of_Z 2)) 0 /\
  exists σ' e',
    update x86_64 2 2 None None slow_world = Ok σ' /\
    get_element σ' 2 = Ok e' /\
    (Rect.x (rect e') = 0 <->
       (Qabs (SF2Q (float_mul f_0_5 (float_of_Z 2))) < 1)%Q) /\
    (Rect.y (rect e') = 0 <->
       (Qabs (SF2Q (float_mul (S754_zero false) (float_of_Z 2))) < 1)%Q).
Proof.
  assert (Hr : forall k, -1 <= k <= 1 -> c_int_range k).
  { unfold c_int_range, INT_MIN, INT_MAX. lia. }
  assert (H1 : displacement (float_mul f_0_5 (float_of_Z 2)) 1).
  { split; [reflexivity|]. split; [apply rounds_toward_zero_iff; reflexivity|].
    apply Hr. lia. }
  assert (H0 : displacement (float_mul (S754_zero false) (float_of_Z 2)) 0).
  { split; [reflexivity|]. split; [apply rounds_toward_zero_iff; reflexivity|].
    apply Hr. lia. }
  split; [reflexivity|]. split; [exact H1|]. split; [exact H0|].
  eexists _, _. split; [run_lhs; reflexivity|]. split; [run_lhs; reflexivity|].
  match goal with
  | |- (Rect.x (rect ?e') = _ <-> _) /\ _ =>
      apply (update_moves_iff x86_64 slow_world 2%positive slow_element 2
               None None
               (float_mul f_0_5 (float_of_Z 2))
               (float_mul (S754_zero false) (float_of_Z 2)) 1 0
               (store 2%positive (OElement e') slow_world) e')
  end; try reflexivity; try assumption; try (apply Hr; simpl; lia).
Defined.

(** ** [update]: there and back *)

Lemma binary_round_aux_negb s m e l :
  binary_round_aux prec emax (negb s) m e l
  = SFopp (binary_round_aux prec emax s m e l).
Proof.
  unfold binary_round_aux.
  destruct (shr_fexp prec emax m e l) as [mrs' e'].
  destruct (shr_fexp prec emax _ e' loc_Exact) as [mrs'' e''].
  destruct (shr_m mrs''); try reflexivity.
  destruct (e'' <=? emax - prec); reflexivity.
Qed.

Lemma float_mul_opp_r f g : float_mul f (SFopp g) = SFopp (float_mul f g).
Proof.
  destruct f as [sf|sf| |sf mf ef], g as [sg|sg| |sg mg eg]; simpl;
    try reflexivity; try (now rewrite <- negb_xorb_r).
  unfold float_mul, SFmul. rewrite <- negb_xorb_r. apply binary_round_aux_negb.
Qed.

Lemma SFopp_involutive f : SFopp (SFopp f) = f.
Proof. destruct f as [[]|[]| |[] m e]; reflexivity. Qed.

Lemma float_of_Z_opp n : n <> 0 -> float_of_Z (- n) = SFopp (float_of_Z n).
Proof.
  intros Hn. destruct n as [|v|v]; [contradiction| |].
  - change (- Z.pos v) with (Z.neg v).
    unfold float_of_Z, binary_normalize, binary_round.
    destruct (shl_align v 0 _) as [mz ez].
    apply (binary_round_aux_negb false).
  - change (- Z.neg v) with (Z.pos v).
    unfold float_of_Z, binary_normalize, binary_round.
    destruct (shl_align v 0 _) as [mz ez].
    change true with (negb false).
    now rewrite binary_round_aux_negb, SFopp_involutive.
Qed.

Lemma Qtruncate_opp f :
  Qtruncate (SF2Q (SFopp f)) = - Qtruncate (SF2Q f).
Proof.
  destruct f as [s|s| |s m e]; try reflexivity.
  unfold Qtruncate. simpl SFopp. unfold SF2Q.
  assert (Hopp : cond_Zopp (negb s) (Z.pos m) = - cond_Zopp s (Z.pos m))
    by (destruct s; reflexivity).
  destruct e as [|p|p]; simpl Qnum; simpl Qden; rewrite Hopp.
  - rewrite Z.mul_opp_l. apply Z.quot_opp_l. lia.
  - rewrite Z.mul_opp_l. apply Z.quot_opp_l. lia.
  - apply Z.quot_opp_l. lia.
Qed.

Lemma displacement_opp f k :
  displacement f k -> c_int_range (- k) -> displacement (SFopp f) (- k).
Proof.
  intros (Hfin & Hk & _) Hrange. split; [destruct f; assumption|].
  split; [|exact Hrange].
  apply rounds_toward_zero_iff in Hk. apply rounds_toward_zero_iff.
  now rewrite Qtruncate_opp, Hk.
Qed.

(** Backwards in time: the product with [- dt] is displaced the other
    way. *)
Lemma float_mul_int_opp f dt p k :
  float_mul_int f dt = Ok p -> displacement p k -> c_int_range (- k) ->
  exists p', float_mul_int f (- dt) = Ok p' /\ displacement p' (- k).
Proof.
  unfold float_mul_int. intros Hp Hk Hrange.
  destruct (py_float_of_int dt) as [fdt|] eqn:Hdt; [|discriminate Hp].
  simpl in Hp. injection Hp as <-.
  destruct (Z.eq_dec dt 0) as [->|Hne].
  - change (- 0) with 0. rewrite Hdt. simpl. eexists. split; [reflexivity|].
    assert (Hz : k = 0).
    { injection Hdt as <-. destruct Hk as (Hfin & Hk & _).
      apply rounds_toward_zero_iff in Hk.
      destruct f; simpl in Hfin; try discriminate Hfin; exact Hk. }
    subst k. exact Hk.
  - assert (Hopp : py_float_of_int (- dt) = Ok (SFopp fdt)).
    { unfold py_float_of_int in *. rewrite (float_of_Z_opp dt Hne).
      destruct (float_of_Z dt); try discriminate Hdt; injection Hdt as <-;
        reflexivity. }
    rewrite Hopp. simpl. eexists. split; [reflexivity|].
    rewrite float_mul_opp_r. now apply displacement_opp.
Qed.

(** X4. [update(- dt)] undoes [update(dt)]: because the displacement is
    rounded toward zero, and not down, the two calls leave the store as
    it was (for finite products whose integral parts, and their
    opposites, are C ints). *)
Theorem update_there_and_back pf σ self e dt ev1 sc1 ev2 sc2 dx dy kx ky :
  get_element σ self = Ok e ->
  float_mul_int (Vector2.x (velocity e)) dt = Ok dx ->
  float_mul_int (Vector2.y (velocity e)) dt = Ok dy ->
  displacement dx kx -> displacement dy ky ->
  c_int_range (- kx) -> c_int_range (- ky) ->
  c_int_range (Rect.x (rect e)) -> c_int_range (Rect.y (rect e)) ->
  exists σ1,
    update pf self dt ev1 sc1 σ = Ok σ1 /\
    update pf self (- dt) ev2 sc2 σ1 = Ok σ.
Proof.
  intros He Hdx Hdy Hkx Hky Hnx Hny Hx Hy.
  destruct (float_mul_int_opp _ dt dx kx Hdx Hkx Hnx) as (dx' & Hdx' & Hkx').
  destruct (float_mul_int_opp _ dt dy ky Hdy Hky Hny) as (dy' & Hdy' & Hky').
  eexists. split; [exact (update_Ok pf σ self e dt ev1 sc1 dx dy He Hdx Hdy)|].
  erewrite update_Ok; [| apply get_element_store_eq | exact Hdx' | exact Hdy'].
  rewrite store_store. simpl.
  rewrite (c_double_to_int_displacement pf dx kx Hkx).
  rewrite (c_double_to_int_displacement pf dy ky Hky).
  rewrite (c_double_to_int_displacement pf dx' (- kx) Hkx').
  rewrite (c_double_to_int_displacement pf dy' (- ky) Hky').
  rewrite !wrap_int_add_l.
  replace (Rect.x (rect e) + kx + - kx) with (Rect.x (rect e)) by lia.
  replace (Rect.y (rect e) + ky + - ky) with (Rect.y (rect e)) by lia.
  rewrite (wrap_int_id _ Hx), (wrap_int_id _ Hy).
  f_equal. rewrite <- (store_id σ self e He) at 2. f_equal. f_equal.
  destruct e as [im [x y w h] v c]. reflexivity.
Qed.

Lemma update_there_and_back_witness :
  get_element slow_world 2 = Ok slow_element /\
  displacement (float_mul f_0_5 (float_of_Z 3)) 1 /\
  exists σ1,
    update x86_64 2 3 None None slow_world = Ok σ1 /\
    position σ1 2 = Some (1, 0) /\
    update x86_64 2 (- 3) None None σ1 = Ok slow_world.
Proof.
  assert (Hr : forall k, -1 <= k <= 1 -> c_int_range k).
  { unfold c_int_range, INT_MIN, INT_MAX. lia. }
  assert (H1 : displacement (float_mul f_0_5 (float_of_Z 3)) 1).
  { split; [reflexivity|]. split; [apply rounds_toward_zero_iff; reflexivity|].
    apply Hr. lia. }
  assert (H0 : displacement (float_mul (S754_zero false) (float_of_Z 3)) 0).
  { split; [reflexivity|]. split; [apply rounds_toward_zero_iff; reflexivity|].
    apply Hr. lia. }
  split; [reflexivity|]. split; [exact H1|].
  destruct (update_there_and_back x86_64 slow_world 2%positive slow_element 3
              None None None None
              (float_mul f_0_5 (float_of_Z 3))
              (float_mul (S754_zero false) (float_of_Z 3)) 1 0)
    as (σ1 & Hu1 & Hu2);
    try reflexivity; try assumption; try (apply Hr; simpl; lia).
  exists σ1. split; [exact Hu1|]. split; [|exact Hu2].
  assert (Hu := Hu1). vm_compute in Hu. injection Hu as <-. reflexivity.
Defined.

(** ** The attributes that no method changes *)

Lemma run_call_keeps_attributes pf c σ σ' self e :
  get_element σ self = Ok e ->
  run_call pf c σ = Ok σ' ->
  exists e',
    get_element σ' self = Ok e' /\ image e' = image e /\
    velocity e' = velocity e /\ collidable e' = collidable e.
Proof.
  intros He Hrun.
  destruct c as [self' dt events screen | self' other | self' screen];
    simpl in Hrun.
  - apply update_inv in Hrun as (e1 & x' & y' & He1 & ->).
    destruct (decide (self' = self)) as [->|Hne].
    + rewrite He in He1. injection He1 as <-.
      eexists. split; [apply get_element_store_eq|]. repeat split.
    + exists e. split; [now rewrite get_element_store_ne|]. repeat split.
  - injection Hrun as <-. exists e. repeat split. exact He.
  - apply draw_inv in Hrun as (e1 & scr & src & He1 & Hscr & Hsrc & ->).
    exists e. split; [|repeat split].
    rewrite get_element_store_ne; [exact He|].
    apply (surface_not_element σ screen self scr e Hscr He).
Qed.

(** X5. No sequence of calls of [update], [collided_with] and [draw], on
    any objects, changes the image, the velocity or the flag of an
    element: the base class never accelerates, stops or disables
    anything. *)
Theorem attributes_never_change pf σ self e calls :
  get_element σ self = Ok e ->
  exists e',
    get_element (run_calls pf calls σ) self = Ok e' /\
    image e' = image e /\ velocity e' = velocity e /\
    collidable e' = collidable e.
Proof.
  revert σ e. induction calls as [|c calls IH]; intros σ e He; simpl.
  - exists e. repeat split. exact He.
  - destruct (run_call pf c σ) as [σ'|ex] eqn:Hrun.
    + destruct (run_call_keeps_attributes pf c σ σ' self e He Hrun)
        as (e1 & He1 & Him & Hv & Hc).
      destruct (IH σ' e1 He1) as (e' & He' & Him' & Hv' & Hc').
      exists e'. split; [exact He'|]. repeat split; congruence.
    + now apply IH.
Qed.

Lemma attributes_never_change_witness :
  get_element slow_world 2 = Ok slow_element /\
  exists e',
    get_element
      (run_calls x86_64
         [CallUpdate 2 1000 None None; CallDraw 2 1; CallCollidedWith 2 2;
          CallUpdate 2 (- 30) None None] slow_world) 2 = Ok e' /\
    image e' = 1%positive /\ velocity e' = velocity slow_element /\
    collidable e' = true.
Proof.
  split; [reflexivity|].
  apply (attributes_never_change x86_64 slow_world 2%positive slow_element).
  reflexivity.
Defined.

(** ** An element at rest *)

Lemma iter_pos_preserves {A} (P : A -> Prop) (f : A -> A) :
  (forall x, P x -> P (f x)) ->
  forall p x, P x -> P (SpecFloat.iter_pos f p x).
Proof.
  intros Hf. induction p as [p IH|p IH|]; intros x Hx; simpl; auto.
Qed.

Lemma shr_1_nonneg r : 0 <= shr_m r -> 0 <= shr_m (shr_1 r).
Proof. destruct r as [[|[p|p|]|[p|p|]] r s]; simpl; lia. Qed.

Lemma shr_fexp_nonneg m e l :
  0 <= m -> 0 <= shr_m (fst (shr_fexp prec emax m e l)).
Proof.
  intros Hm. unfold shr_fexp, shr.
  assert (Hrec : 0 <= shr_m (shr_record_of_loc m l)) by (destruct l as [|[]]; exact Hm).
  destruct (fexp prec emax (Zdigits2 m + e) - e) as [|p|p]; simpl fst; try exact Hrec.
  apply (iter_pos_preserves (fun r => 0 <= shr_m r) shr_1 shr_1_nonneg). exact Hrec.
Qed.

Lemma round_nearest_even_nonneg m l : 0 <= m -> 0 <= round_nearest_even m l.
Proof.
  intros Hm. destruct l as [|[]]; simpl; try destruct (Z.even m); lia.
Qed.

(** Rounding a mantissa that is not negative never gives a NaN. *)
Lemma binary_round_aux_not_nan s m e l :
  0 <= m -> binary_round_aux prec emax s m e l <> S754_nan.
Proof.
  intros Hm. unfold binary_round_aux.
  pose proof (shr_fexp_nonneg m e l Hm) as H1.
  destruct (shr_fexp prec emax m e l) as [mrs' e']. simpl fst in H1.
  pose proof (shr_fexp_nonneg _ e' loc_Exact
                (round_nearest_even_nonneg (shr_m mrs') (loc_of_shr_record mrs') H1))
    as H2.
  destruct (shr_fexp prec emax _ e' loc_Exact) as [mrs'' e'']. simpl fst in H2.
  destruct (shr_m mrs'') as [|p|p]; try discriminate; [|lia].
  destruct (e'' <=? emax - prec); discriminate.
Qed.

(** The double that [float(n)] returns is finite. *)
Lemma py_float_of_int_finite n f : py_float_of_int n = Ok f -> SF_finite f = true.
Proof.
  unfold py_float_of_int.
  assert (Hnan : float_of_Z n <> S754_nan).
  { unfold float_of_Z, binary_normalize. destruct n as [|v|v]; try discriminate;
      unfold binary_round; destruct (shl_align v 0 _) as [mz ez];
      apply binary_round_aux_not_nan; lia. }
  destruct (float_of_Z n); try discriminate; try contradiction;
    intros [= <-]; reflexivity.
Qed.

Lemma run_call_at_rest pf c σ σ' self e sx sy :
  get_element σ self = Ok e ->
  velocity e = Vector2.make (S754_zero sx) (S754_zero sy) ->
  c_int_range (Rect.x (rect e)) -> c_int_range (Rect.y (rect e)) ->
  run_call pf c σ = Ok σ' ->
  get_element σ' self = Ok e.
Proof.
  intros He Hv Hx Hy Hrun.
  destruct c as [self' dt events screen | self' other | self' screen];
    simpl in Hrun.
  - destruct (decide (self' = self)) as [->|Hne].
    + destruct (py_float_of_int dt) as [fdt|ex] eqn:Hdt.
      * rewrite (update_converted pf σ self e dt events screen fdt He Hdt) in Hrun.
        injection Hrun as <-. rewrite get_element_store_eq. f_equal.
        pose proof (py_float_of_int_finite dt fdt Hdt) as Hfin.
        rewrite Hv. simpl Vector2.x. simpl Vector2.y.
        destruct (float_mul_zero_l sx fdt Hfin) as [sx' ->].
        destruct (float_mul_zero_l sy fdt Hfin) as [sy' ->].
        rewrite !c_double_to_int_zero, !Z.add_0_r, !wrap_int_id by assumption.
        apply set_rect_same.
      * rewrite (update_Raise pf σ self e dt events screen ex He Hdt) in Hrun.
        discriminate Hrun.
    + apply update_inv in Hrun as (e1 & x' & y' & He1 & ->).
      now rewrite get_element_store_ne.
  - injection Hrun as <-. exact He.
  - apply draw_inv in Hrun as (e1 & scr & src & He1 & Hscr & Hsrc & ->).
    rewrite get_element_store_ne; [exact He|].
    apply (surface_not_element σ screen self scr e Hscr He).
Qed.

(** X6. An element whose velocity is zero (the default of the
    constructor) never moves: after any sequence of calls of [update],
    [collided_with] and [draw], with any [dt], it is exactly the element
    it was. *)
Theorem at_rest_never_moves pf σ self e sx sy calls :
  get_element σ self = Ok e ->
  velocity e = Vector2.make (S754_zero sx) (S754_zero sy) ->
  c_int_range (Rect.x (rect e)) -> c_int_range (Rect.y (rect e)) ->
  get_element (run_calls pf calls σ) self = Ok e.
Proof.
  intros He Hv Hx Hy. revert σ He.
  induction calls as [|c calls IH]; intros σ He; simpl; [exact He|].
  destruct (run_call pf c σ) as [σ'|ex] eqn:Hrun.
  - apply IH. exact (run_call_at_rest pf c σ σ' self e sx sy He Hv Hx Hy Hrun).
  - now apply IH.
Qed.

Lemma at_rest_never_moves_witness :
  get_element resting_world 2 = Ok resting_element /\
  get_element
    (run_calls x86_64
       [CallUpdate 2 1000 None None; CallUpdate 2 (10 ^ 400) None None;
        CallDraw 2 1; CallUpdate 2 (- 16) None None] resting_world) 2
  = Ok resting_element.
Proof.
  split; [reflexivity|].
  apply (at_rest_never_moves x86_64 resting_world 2%positive resting_element
           false false);
    try reflexivity; unfold c_int_range, INT_MIN, INT_MAX; simpl; lia.
Defined.

(** ** Construction: what the new element refers to *)

(** Construction from a surface, step by step. *)
Lemma new_from_surface_Ok pf class_name r x y v c σ s :
  pg_initialized σ = true ->
  get_surface σ r = Ok s ->
  c_int_range x -> c_int_range y ->
  new pf class_name (PyRef r) x y v c σ
  = Ok (fresh (dom (heap σ)),
        store (fresh (dom (heap σ)))
          (OElement {| image := r;
                       rect := Rect.make x y (surf_w s) (surf_h s);
                       velocity := v; collidable := c |})
          σ).
Proof.
  intros Hinit Hs Hx Hy. unfold new, __init__. simpl pg_initialized.
  rewrite Hinit. simpl negb. cbv iota.
  unfold isinstance_Surface. rewrite get_surface_new_self, Hs.
  simpl. rewrite get_surface_new_self, Hs. simpl.
  rewrite (Surface_get_rect_ints _ x y Hx Hy). simpl.
  now rewrite store_store.
Qed.

(** X7. An element constructed from a surface refers to that very
    surface, not to a copy: the new element is a new object of the
    store, its image is the reference it was given, and every object
    that existed, the surface included, is what it was. *)
Theorem new_shares_surface pf class_name r x y v c σ s :
  pg_initialized σ = true ->
  get_surface σ r = Ok s ->
  c_int_range x -> c_int_range y ->
  exists self σ' e,
    new pf class_name (PyRef r) x y v c σ = Ok (self, σ') /\
    heap σ !! self = None /\
    get_element σ' self = Ok e /\
    image e = r /\
    get_surface σ' r = Ok s /\
    (forall r', r' <> self -> heap σ' !! r' = heap σ !! r').
Proof.
  intros Hinit Hs Hx Hy.
  eexists _, _, _. split.
  { apply new_from_surface_Ok; eassumption. }
  split; [apply fresh_heap_None|].
  split; [apply get_element_store_eq|]. split; [reflexivity|].
  split.
  - rewrite get_surface_store_ne; [exact Hs|].
    intros <-. apply get_surface_Ok in Hs.
    rewrite fresh_heap_None in Hs. discriminate.
  - intros r' Hr'. now apply heap_store_frame.
Qed.

Lemma new_shares_surface_witness :
  pg_initialized slow_world = true /\
  (exists s, get_surface slow_world 1 = Ok s) /\
  exists self σ' e,
    new x86_64 "GameElement" (PyRef 1) 3 4 scenario_velocity true slow_world
      = Ok (self, σ') /\
    get_element σ' self = Ok e /\ image e = 1%positive /\
    get_element σ' 2 = Ok slow_element /\ image slow_element = image e.
Proof.
  split; [reflexivity|]. split; [eexists; reflexivity|].
  destruct (new_shares_surface x86_64 "GameElement" 1%positive 3 4
              scenario_velocity true slow_world
              {| surf_w := 32; surf_h := 16; surf_paint := Pixels "sprite" |})
    as (self & σ' & e & Hnew & Hfresh & He & Him & _ & Hframe);
    try reflexivity; try (unfold c_int_range, INT_MIN, INT_MAX; lia).
  exists self, σ', e. split; [exact Hnew|]. split; [exact He|].
  split; [exact Him|]. split; [|now rewrite Him].
  apply get_element_Ok. rewrite Hframe; [reflexivity|].
  intros <-. vm_compute in Hfresh. discriminate Hfresh.
Defined.

(** Construction from a path, step by step. *)
Lemma new_from_path_Ok pf class_name path x y v c σ w h :
  pg_initialized σ = true ->
  image_load pf path = Ok (w, h) ->
  c_int_range x -> c_int_range y ->
  let self := fresh (dom (heap σ)) in
  let r := fresh (dom (heap (store self OBlank σ))) in
  new pf class_name (PyStr path) x y v c σ
  = Ok (self,
        store self
          (OElement {| image := r;
                       rect := Rect.make x y w h;
                       velocity := v; collidable := c |})
          (store r (OSurface {| surf_w := w; surf_h := h;
                                surf_paint := Pixels path |})
             (store self OBlank σ))).
Proof.
  intros Hinit Hload Hx Hy self r. unfold new, __init__. simpl pg_initialized.
  rewrite Hinit. simpl negb. cbv iota.
  unfold image_load_convert_alpha. rewrite Hload. simpl result_bind.
  fold self. fold r. unfold fst, snd.
  unfold get_surface at 1. rewrite heap_store_eq. simpl result_bind.
  rewrite (Surface_get_rect_ints _ x y Hx Hy). reflexivity.
Qed.

(** X8. Construction from a path: when the file cannot be loaded the
    exception of the loader comes out as it is (not as a [ValueError]);
    when it can, the image of the new element is the surface that the
    loader made, at a reference that was not allocated before the call
    (so it is not the image of any element that existed and whose image
    is a live object), its [rect] is at [(x, y)] with the size of that
    surface, and every object that existed is what it was. *)
Theorem new_loads_path pf class_name path x y v c σ :
  pg_initialized σ = true ->
  (forall ex, image_load pf path = Raise ex ->
     new pf class_name (PyStr path) x y v c σ = Raise ex) /\
  (forall w h, image_load pf path = Ok (w, h) ->
     c_int_range x -> c_int_range y ->
     exists self σ' e,
       new pf class_name (PyStr path) x y v c σ = Ok (self, σ') /\
       get_element σ' self = Ok e /\
       heap σ !! self = None /\ heap σ !! image e = None /\
       image e <> self /\
       get_surface σ' (image e)
         = Ok {| surf_w := w; surf_h := h; surf_paint := Pixels path |} /\
       Rect.topleft (rect e) = (x, y) /\ Rect.size (rect e) = (w, h) /\
       (forall r0 e0, get_element σ r0 = Ok e0 ->
          heap σ !! image e0 <> None -> image e0 <> image e) /\
       (forall r' o, heap σ !! r' = Some o -> heap σ' !! r' = Some o)).
Proof.
  intros Hinit. split.
  - intros ex Hload. unfold new, __init__. simpl pg_initialized.
    rewrite Hinit. simpl negb. cbv iota.
    unfold image_load_convert_alpha. now rewrite Hload.
  - intros w h Hload Hx Hy.
    set (self := fresh (dom (heap σ))).
    set (r := fresh (dom (heap (store self OBlank σ)))).
    assert (Hself : heap σ !! self = None) by apply fresh_heap_None.
    assert (Hr : heap (store self OBlank σ) !! r = None) by apply fresh_heap_None.
    assert (Hne : r <> self).
    { intros Heq. rewrite Heq, heap_store_eq in Hr. discriminate. }
    assert (Hrσ : heap σ !! r = None).
    { rewrite heap_store_frame in Hr by exact Hne. exact Hr. }
    eexists _, _, _. split.
    { apply new_from_path_Ok; eassumption. }
    fold self. fold r.
    split; [apply get_element_store_eq|]. simpl image.
    split; [exact Hself|]. split; [exact Hrσ|]. split; [exact Hne|].
    split.
    { rewrite get_surface_store_ne by congruence.
      apply get_surface_Ok, heap_store_eq. }
    split; [reflexivity|]. split; [reflexivity|].
    split.
    + intros r0 e0 _ Hlive Heq. apply Hlive. now rewrite Heq.
    + intros r' o Ho.
      rewrite !heap_store_frame; [exact Ho| | |]; intros ->; congruence.
Qed.

Lemma new_loads_path_witness :
  pg_initialized slow_world = true /\
  new x86_64 "GameElement" (PyStr "missing.png") 0 0 scenario_velocity true
      slow_world = Raise (OSError "No such file or directory") /\
  exists self σ' e,
    new x86_64 "GameElement" (PyStr "ship.png") 0 0 scenario_velocity true
        slow_world = Ok (self, σ') /\
    get_element σ' self = Ok e /\
    heap slow_world !! image e = None /\
    get_surface σ' (image e)
      = Ok {| surf_w := 32; surf_h := 16; surf_paint := Pixels "ship.png" |}.
Proof.
  split; [reflexivity|]. split.
  - apply (proj1 (new_loads_path x86_64 "GameElement" "missing.png" 0 0
                    scenario_velocity true slow_world eq_refl)).
    reflexivity.
  - destruct (proj2 (new_loads_path x86_64 "GameElement" "ship.png" 0 0
                       scenario_velocity true slow_world eq_refl) 32 16)
      as (self & σ' & e & Hnew & He & _ & Hfresh & _ & Hs & _);
      try reflexivity; try (unfold c_int_range, INT_MIN, INT_MAX; lia).
    exists self, σ', e. repeat split; assumption.
Defined.

(** ** A frame: [update], then [draw] *)

Lemma draw_Ok self screen σ e scr src :
  get_element σ self = Ok e ->
  get_surface σ screen = Ok scr ->
  get_surface σ (image e) = Ok src ->
  draw self screen σ
  = Ok (store screen
          (OSurface {| surf_w := surf_w scr; surf_h := surf_h scr;
                       surf_paint := Blitted (surf_paint scr) (surf_paint src)
                                       (Rect.topleft (rect e)) |})
          σ).
Proof.
  intros He Hscr Hsrc. unfold draw, Surface_blit.
  rewrite (get_blit_surface σ screen scr Hscr), He, Hscr. simpl.
  now rewrite Hsrc.
Qed.

(** X9. Within a frame, [draw] after [update] blits the image at the
    position that [update] has just computed, on a screen whose size is
    unchanged, and leaves the element at that position. *)
Theorem update_then_draw pf σ self e dt events screen scr src dx dy kx ky target :
  get_element σ self = Ok e ->
  get_surface σ target = Ok scr ->
  get_surface σ (image e) = Ok src ->
  float_mul_int (Vector2.x (velocity e)) dt = Ok dx ->
  float_mul_int (Vector2.y (velocity e)) dt = Ok dy ->
  displacement dx kx -> displacement dy ky ->
  c_int_range (Rect.x (rect e) + kx) -> c_int_range (Rect.y (rect e) + ky) ->
  exists σ1 σ2,
    update pf self dt events screen σ = Ok σ1 /\
    draw self target σ1 = Ok σ2 /\
    get_surface σ2 target
      = Ok {| surf_w := surf_w scr; surf_h := surf_h scr;
              surf_paint := Blitted (surf_paint scr) (surf_paint src)
                              (Rect.x (rect e) + kx, Rect.y (rect e) + ky) |} /\
    position σ2 self = Some (Rect.x (rect e) + kx, Rect.y (rect e) + ky).
Proof.
  intros He Hscr Hsrc Hdx Hdy Hkx Hky Hrx Hry.
  assert (Hne : self <> target).
  { intros ->. apply (surface_not_element σ target target scr e Hscr He).
    reflexivity. }
  assert (Hne' : self <> image e).
  { intros Heq. apply (surface_not_element σ (image e) self src e Hsrc He).
    now rewrite <- Heq. }
  eexists _, _. split.
  { rewrite (update_Ok pf σ self e dt events screen dx dy He Hdx Hdy).
    rewrite (c_double_to_int_displacement pf dx kx Hkx).
    rewrite (c_double_to_int_displacement pf dy ky Hky).
    rewrite !wrap_int_id by assumption. reflexivity. }
  split.
  { apply draw_Ok with (scr := scr) (src := src).
    - apply get_element_store_eq.
    - now rewrite get_surface_store_ne.
    - simpl image. now rewrite get_surface_store_ne. }
  split; [apply get_surface_Ok, heap_store_eq|].
  unfold position. rewrite get_element_store_ne by congruence.
  now rewrite get_element_store_eq.
Qed.

Lemma update_then_draw_witness :
  get_element slow_world 2 = Ok slow_element /\
  displacement (float_mul f_0_5 (float_of_Z 6)) 3 /\
  exists σ1 σ2,
    update x86_64 2 6 None None slow_world = Ok σ1 /\
    draw 2 1 σ1 = Ok σ2 /\
    get_surface σ2 1
      = Ok {| surf_w := 32; surf_h := 16;
              surf_paint := Blitted (Pixels "sprite") (Pixels "sprite")
                              (0 + 3, 0 + 0) |} /\
    position σ2 2 = Some (0 + 3, 0 + 0).
Proof.
  assert (Hr : forall k, -3 <= k <= 3 -> c_int_range k).
  { unfold c_int_range, INT_MIN, INT_MAX. lia. }
  assert (H3 : displacement (float_mul f_0_5 (float_of_Z 6)) 3).
  { split; [reflexivity|]. split; [apply rounds_toward_zero_iff; reflexivity|].
    apply Hr. lia. }
  assert (H0 : displacement (float_mul (S754_zero false) (float_of_Z 6)) 0).
  { split; [reflexivity|]. split; [apply rounds_toward_zero_iff; reflexivity|].
    apply Hr. lia. }
  split; [reflexivity|]. split; [exact H3|].
  apply (update_then_draw x86_64 slow_world 2%positive slow_element 6 None None
           {| surf_w := 32; surf_h := 16; surf_paint := Pixels "sprite" |}
           {| surf_w := 32; surf_h := 16; surf_paint := Pixels "sprite" |}
           (float_mul f_0_5 (float_of_Z 6))
           (float_mul (S754_zero false) (float_of_Z 6)) 3 0 1%positive);
    try reflexivity; try assumption; try (apply Hr; simpl; lia).
Defined.
